(** * ll: a linked list with reader/writer locks (src/ll.c, include/ll.h)

    The list object, its nodes and the callbacks it is given are embedded as a
    small heap model: one [ll_t] block, a finite map of allocated [ll_node]
    blocks, and the log of callback invocations.  Every function of [ll.c] is
    a computation in a state-and-fault monad over that world and follows the
    C text statement by statement. *)

From stdpp Require Import gmap list fin_maps.
From Stdlib Require Import ZArith Lia.

Local Open Scope Z_scope.

(** ** Machine integers and pointers *)

(** [int] is 32 bits wide; arithmetic on it is written with its wrap-around. *)
Definition INT_MIN : Z := - 2 ^ 31.
Definition INT_MAX : Z := 2 ^ 31 - 1.
Definition int_wrap (z : Z) : Z := (z + 2 ^ 31) `mod` 2 ^ 32 - 2 ^ 31.

(** A [void *] payload is an opaque address; [NULL] is address 0. *)
Abbreviation ptr := Z (only parsing).
Definition NULL : ptr := 0.

(** A [ll_node_t *] is [None] for the null pointer and [Some a] for the
    address [a] of a node block. *)
Abbreviation loc := positive (only parsing).
Abbreviation node_ptr := (option positive) (only parsing).

(** A [gen_fun_t] is [None] for a null function pointer and [Some f] for the
    callback identified by [f]. *)
Abbreviation fn := nat (only parsing).
Abbreviation gen_fun_t := (option nat) (only parsing).

(** ** Type definitions of ll.h and ll.c *)

Inductive locktype_t := l_read | l_write.

(** The state of a [pthread_rwlock_t] as seen by the one caller that the
    model follows: free, or held in the mode it was last taken in. *)
Inductive rwlock := Unlocked | Locked (lt : locktype_t).

Inductive valid_flag_t := INVALID | VALID.

Record ll_node := Node {
  node_val : ptr;
  node_nxt : node_ptr;
  node_m : rwlock
}.

Record ll_t := LL {
  ll_len : Z;
  ll_hd : node_ptr;
  ll_m : rwlock;
  ll_val_teardown : gen_fun_t;
  ll_val_printer : gen_fun_t;
  ll_valid_flag : valid_flag_t
}.

Global Instance locktype_eq_dec : EqDecision locktype_t.
Proof. solve_decision. Defined.
Global Instance rwlock_eq_dec : EqDecision rwlock.
Proof. solve_decision. Defined.
Global Instance valid_flag_eq_dec : EqDecision valid_flag_t.
Proof. solve_decision. Defined.

(** Field assignments. *)
Definition set_len (z : Z) (l : ll_t) : ll_t :=
  LL z (ll_hd l) (ll_m l) (ll_val_teardown l) (ll_val_printer l) (ll_valid_flag l).
Definition set_hd (p : node_ptr) (l : ll_t) : ll_t :=
  LL (ll_len l) p (ll_m l) (ll_val_teardown l) (ll_val_printer l) (ll_valid_flag l).
Definition set_m (k : rwlock) (l : ll_t) : ll_t :=
  LL (ll_len l) (ll_hd l) k (ll_val_teardown l) (ll_val_printer l) (ll_valid_flag l).
Definition set_val_teardown (f : gen_fun_t) (l : ll_t) : ll_t :=
  LL (ll_len l) (ll_hd l) (ll_m l) f (ll_val_printer l) (ll_valid_flag l).
Definition set_val_printer (f : gen_fun_t) (l : ll_t) : ll_t :=
  LL (ll_len l) (ll_hd l) (ll_m l) (ll_val_teardown l) f (ll_valid_flag l).
Definition set_valid_flag (v : valid_flag_t) (l : ll_t) : ll_t :=
  LL (ll_len l) (ll_hd l) (ll_m l) (ll_val_teardown l) (ll_val_printer l) v.

Definition set_nxt (p : node_ptr) (nd : ll_node) : ll_node :=
  Node (node_val nd) p (node_m nd).
Definition set_node_m (k : rwlock) (nd : ll_node) : ll_node :=
  Node (node_val nd) (node_nxt nd) k.

(** ** The world and the monad *)

(** [list_mem] is the block the caller's [ll_t *list] points to ([None] when
    it has not been allocated or has been freed), [heap] the allocated nodes,
    [calls] the callback invocations so far, most recent first: [(f, v)]
    stands for one call [f(v)]. *)
Record state := State {
  list_mem : option ll_t;
  heap : gmap positive ll_node;
  calls : list (nat * Z)
}.

(** What C leaves undefined, or aborts on, is a fault. [Diverge] stands for a
    loop that does not end. *)
Inductive fault := NullDeref | BadPointer | NullCall | AssertFail | Diverge.

Inductive outcome (A : Type) :=
  | Ok (a : A) (s : state)
  | Fault (e : fault).
Arguments Ok {A} a s.
Arguments Fault {A} e.

Definition M (A : Type) : Type := state → outcome A.

Global Instance M_ret : MRet M := λ A a s, Ok a s.
Global Instance M_bind : MBind M := λ A B k c s,
  match c s with
  | Ok a s' => k a s'
  | Fault e => Fault e
  end.

Definition raise {A} (e : fault) : M A := λ _, Fault e.

(** [list->field] read and written through the caller's pointer. *)
Definition list_get : M ll_t := λ s,
  match list_mem s with
  | Some l => Ok l s
  | None => Fault BadPointer
  end.

Definition list_upd (f : ll_t → ll_t) : M unit := λ s,
  match list_mem s with
  | Some l => Ok tt (State (Some (f l)) (heap s) (calls s))
  | None => Fault BadPointer
  end.

(** [p->field] for a node pointer [p]. *)
Definition node_get (p : node_ptr) : M ll_node := λ s,
  match p with
  | None => Fault NullDeref
  | Some a =>
      match heap s !! a with
      | Some nd => Ok nd s
      | None => Fault BadPointer
      end
  end.

Definition node_upd (p : node_ptr) (f : ll_node → ll_node) : M unit := λ s,
  match p with
  | None => Fault NullDeref
  | Some a =>
      match heap s !! a with
      | Some nd => Ok tt (State (list_mem s) (<[a := f nd]> (heap s)) (calls s))
      | None => Fault BadPointer
      end
  end.

(** [free(p)] on a node pointer: nothing for [NULL], the block is released
    otherwise. *)
Definition free_node (p : node_ptr) : M unit := λ s,
  match p with
  | None => Ok tt s
  | Some a =>
      match heap s !! a with
      | Some _ => Ok tt (State (list_mem s) (delete a (heap s)) (calls s))
      | None => Fault BadPointer
      end
  end.

(** [f(v)] through a function pointer. The callbacks are the caller's code;
    they get the payload only, so all the model keeps of a call is its entry
    in the log. *)
Definition invoke (f : gen_fun_t) (v : ptr) : M unit := λ s,
  match f with
  | None => Fault NullCall
  | Some g => Ok tt (State (list_mem s) (heap s) ((g, v) :: calls s))
  end.

Definition assert (b : bool) : M unit :=
  if b then mret tt else raise AssertFail.

(** A [while] loop over the chain is unrolled at most once per allocated node
    and once more: a chain that takes longer than that has come back to a node
    it already visited. *)
Definition chain_fuel : M nat := λ s, Ok (S (size (heap s))) s.

(** ** Macros *)

Inductive lockable := the_list | a_node (p : node_ptr).

(** [RWLOCK(item, locktype)] and [RWUNLOCK(item)]. The model follows a single
    caller, for whom taking a lock succeeds. *)
Definition RWLOCK (item : lockable) (lt : locktype_t) : M unit :=
  match item with
  | the_list => list_upd (set_m (Locked lt))
  | a_node p => node_upd p (set_node_m (Locked lt))
  end.

Definition RWUNLOCK (item : lockable) : M unit :=
  match item with
  | the_list => list_upd (set_m Unlocked)
  | a_node p => node_upd p (set_node_m Unlocked)
  end.

(** [pthread_rwlock_destroy(&(item->m))] releases no memory and leaves the
    lock word where it is; [ll.c] goes on locking the list after [ll_clear]
    has destroyed its lock (its own [main] does), so the word stays usable. *)
Definition pthread_rwlock_destroy (item : lockable) : M unit :=
  match item with
  | the_list => list_upd (λ l, l)
  | a_node p => node_upd p (λ nd, nd)
  end.

(** [CHECK_VALID(list, locktype, retval)]: lock the list, and leave the
    calling function with [retval] when the list is not valid; [body] is the
    rest of the calling function. *)
Definition CHECK_VALID {A} (lt : locktype_t) (retval : A) (body : M A) : M A :=
  RWLOCK the_list lt;;
  list ← list_get;
  match ll_valid_flag list with
  | VALID => body
  | INVALID => RWUNLOCK the_list;; mret retval
  end.

(** ** Functions of ll.c *)

(** [malloc] leaves [val_printer] as it found the memory: [junk] is what was
    there. The block replaces whatever [list] pointed to before. *)
Definition ll_new (val_teardown : gen_fun_t) (junk : gen_fun_t) : M unit := λ s,
  Ok tt (State (Some (LL 0 None Unlocked val_teardown junk VALID)) (heap s) (calls s)).

(** The [while (next != NULL)] loop of [ll_clear]. *)
Fixpoint ll_clear_loop (fuel : nat) (next : node_ptr) : M unit :=
  match next with
  | None => mret tt
  | Some _ =>
      match fuel with
      | O => raise Diverge
      | S fuel' =>
          let node := next in
          RWLOCK (a_node node) l_write;;
          list ← list_get;
          nd ← node_get node;
          invoke (ll_val_teardown list) (node_val nd);;
          nd ← node_get node;
          let next := node_nxt nd in
          RWUNLOCK (a_node node);;
          pthread_rwlock_destroy (a_node node);;
          free_node node;;
          list_upd (λ l, set_len (int_wrap (ll_len l - 1)) l);;
          ll_clear_loop fuel' next
      end
  end.

Definition ll_clear : M unit :=
  CHECK_VALID l_write tt (
    list ← list_get;
    fuel ← chain_fuel;
    ll_clear_loop fuel (ll_hd list);;
    list ← list_get;
    assert (bool_decide (ll_len list = 0));;
    list_upd (set_hd None);;
    list_upd (set_val_teardown None);;
    list_upd (set_val_printer None);;
    list_upd (set_valid_flag INVALID);;
    RWUNLOCK the_list;;
    pthread_rwlock_destroy the_list).

(** [free(list)]. *)
Definition free_list : M unit := λ s,
  match list_mem s with
  | Some _ => Ok tt (State None (heap s) (calls s))
  | None => Fault BadPointer
  end.

Definition ll_delete : M unit :=
  list ← list_get;
  (if bool_decide (ll_valid_flag list ≠ INVALID) then ll_clear else mret tt);;
  free_list.

Definition ll_length : M Z :=
  CHECK_VALID l_read (-1) (
    list ← list_get;
    let len := ll_len list in
    RWUNLOCK the_list;;
    mret len).

(** [malloc] hands out the address of a block that is not allocated. *)
Definition ll_new_node (val : ptr) : M node_ptr := λ s,
  let a := fresh (dom (heap s)) in
  Ok (Some a) (State (list_mem s) (<[a := Node val None Unlocked]> (heap s)) (calls s)).

(** The [for (; n > 1; n--)] loop of [ll_select_n_min_1]; [n] only goes down,
    so [fuel] is taken to be the [n] it starts with. *)
Fixpoint ll_select_loop (fuel : nat) (node : node_ptr) (n : Z) (lt : locktype_t)
  : M (Z * node_ptr) :=
  if n >? 1 then
    match fuel with
    | O => raise Diverge
    | S fuel' =>
        let last := node in
        nd ← node_get last;
        let node := node_nxt nd in
        match node with
        | None =>
            RWUNLOCK (a_node last);;
            RWUNLOCK the_list;;
            mret (-1, node)
        | Some _ =>
            RWLOCK (a_node node) lt;;
            RWUNLOCK (a_node last);;
            ll_select_loop fuel' node (n - 1) lt
        end
    end
  else mret (0, node).

(** [node] is what the caller's [*node] holds at the call; the second
    component of the result is what it holds at the return. *)
Definition ll_select_n_min_1 (node : node_ptr) (n : Z) (lt : locktype_t)
  : M (Z * node_ptr) :=
  if n <? 0 then mret (-1, node)
  else if n =? 0 then mret (0, node)
  else
    CHECK_VALID lt (-1, node) (
      list ← list_get;
      let node := ll_hd list in
      match node with
      | None =>
          assert (bool_decide (ll_len list = 0));;
          RWUNLOCK the_list;;
          mret (-1, node)
      | Some _ =>
          RWLOCK (a_node node) lt;;
          ll_select_loop (Z.to_nat n) node n lt
      end).

(** The local [nth_node] is not initialised; it is read only after
    [ll_select_n_min_1] has returned 0 for an [n <> 0], which has assigned
    it. *)
Definition ll_insert_n (val : ptr) (n : Z) : M Z :=
  new_node ← ll_new_node val;
  let finish : M Z :=
    list_upd (λ l, set_len (int_wrap (ll_len l + 1)) l);;
    RWUNLOCK the_list;;
    list ← list_get;
    mret (ll_len list) in
  if n =? 0 then
    CHECK_VALID l_write (-1) (
      list ← list_get;
      node_upd new_node (set_nxt (ll_hd list));;
      list_upd (set_hd new_node);;
      finish)
  else
    '(r, nth_node) ← ll_select_n_min_1 None n l_write;
    if negb (r =? 0) then
      free_node new_node;;
      mret (-1)
    else
      nth ← node_get nth_node;
      node_upd new_node (set_nxt (node_nxt nth));;
      node_upd nth_node (set_nxt new_node);;
      RWUNLOCK (a_node nth_node);;
      finish.

Definition ll_insert_first (val : ptr) : M Z := ll_insert_n val 0.

Definition ll_insert_last (val : ptr) : M Z :=
  list ← list_get;
  ll_insert_n val (ll_len list).

Definition ll_remove_n (n : Z) : M Z :=
  let finish (tmp : node_ptr) : M Z :=
    list_upd (λ l, set_len (int_wrap (ll_len l - 1)) l);;
    list ← list_get;
    t ← node_get tmp;
    invoke (ll_val_teardown list) (node_val t);;
    RWUNLOCK the_list;;
    pthread_rwlock_destroy (a_node tmp);;
    free_node tmp;;
    list ← list_get;
    mret (ll_len list) in
  if n =? 0 then
    CHECK_VALID l_write (-1) (
      list ← list_get;
      let tmp := ll_hd list in
      t ← node_get tmp;
      list_upd (set_hd (node_nxt t));;
      finish tmp)
  else
    '(r, nth_node) ← ll_select_n_min_1 None n l_write;
    if negb (r =? 0) then mret (-1)
    else
      nth ← node_get nth_node;
      let tmp := node_nxt nth in
      nn ← match node_nxt nth with
           | None => mret None
           | Some _ => t ← node_get (node_nxt nth); mret (node_nxt t)
           end;
      node_upd nth_node (set_nxt nn);;
      RWUNLOCK (a_node nth_node);;
      finish tmp.

Definition ll_remove_first : M Z := ll_remove_n 0.

Definition ll_pop_first : M ptr :=
  let data := NULL in
  CHECK_VALID l_write NULL (
    list ← list_get;
    let node := ll_hd list in
    data ← match node with
           | Some _ =>
               nd ← node_get node;
               let data := node_val nd in
               list_upd (λ l, set_len (int_wrap (ll_len l - 1)) l);;
               list_upd (set_hd (node_nxt nd));;
               pthread_rwlock_destroy (a_node node);;
               free_node node;;
               mret data
           | None => mret data
           end;
    RWUNLOCK the_list;;
    mret data).

(** The scanning loop shared by [ll_remove_search], [ll_find] and
    [ll_remove_find]: [while ((node != NULL) && go_on(node->val))], with
    [last] following one node behind. The callbacks [cond] and [comparator]
    enter through [go_on]; they are taken to be functions of the payload. *)
Fixpoint ll_scan_loop (fuel : nat) (go_on : ptr → bool) (last node : node_ptr)
  : M (node_ptr * node_ptr) :=
  match node with
  | None => mret (last, node)
  | Some _ =>
      nd ← node_get node;
      if go_on (node_val nd) then
        match fuel with
        | O => raise Diverge
        | S fuel' => ll_scan_loop fuel' go_on node (node_nxt nd)
        end
      else mret (last, node)
  end.

Definition ll_remove_search (cond : ptr → Z) : M Z :=
  CHECK_VALID l_write (-1) (
    list ← list_get;
    fuel ← chain_fuel;
    '(last, node) ← ll_scan_loop fuel (λ v, cond v =? 0) None (ll_hd list);
    match node with
    | None => mret (-1)
    | Some _ =>
        list ← list_get;
        (if bool_decide (node = ll_hd list) then
           nd ← node_get node;
           list_upd (set_hd (node_nxt nd))
         else
           RWLOCK (a_node last) l_write;;
           nd ← node_get node;
           node_upd last (set_nxt (node_nxt nd));;
           RWUNLOCK (a_node last));;
        list ← list_get;
        nd ← node_get node;
        invoke (ll_val_teardown list) (node_val nd);;
        pthread_rwlock_destroy (a_node node);;
        list_upd (λ l, set_len (int_wrap (ll_len l - 1)) l);;
        RWUNLOCK the_list;;
        free_node node;;
        list ← list_get;
        mret (ll_len list)
    end).

Definition ll_get_n (n : Z) : M ptr :=
  let node := None in
  let val := NULL in
  '(r, node) ← ll_select_n_min_1 node (int_wrap (n + 1)) l_read;
  if negb (r =? 0) then mret NULL
  else
    nd ← node_get node;
    let val := node_val nd in
    RWUNLOCK (a_node node);;
    RWUNLOCK the_list;;
    mret val.

Definition ll_get_first : M ptr := ll_get_n 0.

(** The [while (node != NULL)] loop of [_ll_map_internal]. *)
Fixpoint _ll_map_loop (fuel : nat) (node : node_ptr) (f : gen_fun_t) : M unit :=
  match node with
  | None => mret tt
  | Some _ =>
      match fuel with
      | O => raise Diverge
      | S fuel' =>
          RWLOCK (a_node node) l_write;;
          nd ← node_get node;
          let next := node_nxt nd in
          invoke f (node_val nd);;
          RWUNLOCK (a_node node);;
          _ll_map_loop fuel' next f
      end
  end.

(** [list] is the struct the function's pointer argument points to. *)
Definition _ll_map_internal (list : ll_t) (f : gen_fun_t) : M unit :=
  fuel ← chain_fuel;
  _ll_map_loop fuel (ll_hd list) f.

Definition ll_map (f : gen_fun_t) : M unit :=
  CHECK_VALID l_read tt (
    list ← list_get;
    _ll_map_internal list f;;
    RWUNLOCK the_list).

(** [ll_print] takes the list by value: the lock it takes and releases, and
    the length it reads, are those of its own copy of the struct; the nodes
    are the caller's. The two [printf] calls write to the standard output,
    which is not part of the world. *)
Definition ll_print : M unit :=
  arg ← list_get;
  let list := set_m (Locked l_read) arg in
  match ll_valid_flag list with
  | INVALID => mret tt
  | VALID =>
      match ll_val_printer list with
      | Some _ => _ll_map_internal list (ll_val_printer list)
      | None => mret tt
      end
  end.

Definition ll_find (comparator : ptr → ptr → Z) (ref_value : ptr) : M ptr :=
  CHECK_VALID l_read NULL (
    list ← list_get;
    fuel ← chain_fuel;
    '(_, node) ← ll_scan_loop fuel (λ v, negb (comparator v ref_value =? 0))
                   None (ll_hd list);
    RWUNLOCK the_list;;
    match node with
    | None => mret NULL
    | Some _ => nd ← node_get node; mret (node_val nd)
    end).

Definition ll_remove_find (comparator : ptr → ptr → Z) (ref_value : ptr) : M Z :=
  let new_len := -1 in
  CHECK_VALID l_write (-1) (
    list ← list_get;
    fuel ← chain_fuel;
    '(last, node) ← ll_scan_loop fuel (λ v, negb (comparator v ref_value =? 0))
                      None (ll_hd list);
    match node with
    | None => mret (-1)
    | Some _ =>
        list ← list_get;
        (if bool_decide (node = ll_hd list) then
           nd ← node_get node;
           list_upd (set_hd (node_nxt nd))
         else
           RWLOCK (a_node last) l_write;;
           nd ← node_get node;
           node_upd last (set_nxt (node_nxt nd));;
           RWUNLOCK (a_node last));;
        list ← list_get;
        nd ← node_get node;
        invoke (ll_val_teardown list) (node_val nd);;
        pthread_rwlock_destroy (a_node node);;
        free_node node;;
        list_upd (λ l, set_len (int_wrap (ll_len l - 1)) l);;
        list ← list_get;
        let new_len := ll_len list in
        RWUNLOCK the_list;;
        mret new_len
    end).

(** * Vocabulary of the specification *)

(** ** The chain from [hd] *)

(** [lseg h p q items]: following [nxt] from [p] one reaches [q] after going
    through exactly the nodes of [items], each given with its address and its
    payload. *)
Fixpoint lseg (h : gmap positive ll_node) (p q : node_ptr)
    (items : list (positive * Z)) : Prop :=
  match items with
  | [] => p = q
  | (a, v) :: rest =>
      p = Some a ∧
      ∃ nd, h !! a = Some nd ∧ node_val nd = v ∧ lseg h (node_nxt nd) q rest
  end.

(** The nodes reachable from [p], up to the null pointer that ends them. *)
Definition chain (h : gmap positive ll_node) (p : node_ptr)
    (items : list (positive * Z)) : Prop :=
  lseg h p None items.

(** No node's lock is held. *)
Definition nodes_unlocked (h : gmap positive ll_node) : Prop :=
  ∀ a nd, h !! a = Some nd → node_m nd = Unlocked.

(** A valid list as the functions expect to find it between two calls: the
    block is allocated and flagged valid, [items] are the nodes reachable from
    the head, [len] counts them and fits an [int], a teardown callback is
    bound, and no lock is held. *)
Record valid_list (s : state) (l : ll_t) (items : list (positive * Z)) : Prop := {
  vl_mem : list_mem s = Some l;
  vl_flag : ll_valid_flag l = VALID;
  vl_chain : chain (heap s) (ll_hd l) items;
  vl_len : ll_len l = Z.of_nat (length items);
  vl_range : ll_len l ≤ INT_MAX;
  vl_teardown : is_Some (ll_val_teardown l);
  vl_lock : ll_m l = Unlocked;
  vl_nodes : nodes_unlocked (heap s)
}.

(** The block is still allocated, its flag says [INVALID], and its lock is
    free. *)
Record invalid_list (s : state) (l : ll_t) : Prop := {
  il_mem : list_mem s = Some l;
  il_flag : ll_valid_flag l = INVALID;
  il_lock : ll_m l = Unlocked
}.

(** ** Worlds up to the list's lock *)

(** [ll_remove_search] and [ll_remove_find] return -1 for "not found" with
    the list's lock still held. Every function that takes that lock first
    does the same from such a world as from the one with the lock free. *)
Definition unlock_list (s : state) : state :=
  State (set_m Unlocked <$> list_mem s) (heap s) (calls s).

(** ** What a call leaves behind *)

(** The address of the last node of [pre], or [d] when there is none. *)
Definition last_ptr (d : node_ptr) (pre : list (positive * Z)) : node_ptr :=
  match last pre with
  | Some (a, _) => Some a
  | None => d
  end.

(** The calls a traversal by [g] adds to the log, most recent first. *)
Definition calls_on (g : nat) (items : list (positive * Z)) : list (nat * Z) :=
  reverse ((λ x, (g, x.2)) <$> items).

(** The heap once the nodes at [addrs] have been released. *)
Definition released (addrs : list positive) (h : gmap positive ll_node)
  : gmap positive ll_node :=
  foldl (λ h a, delete a h) h addrs.

(** What is left once [ll_remove_search] or [ll_remove_find] has removed the
    node [(a, v)] found after [pre]. *)
Definition removed_world (s : state) (l : ll_t) (pre post : list (positive * Z))
    (v : Z) (td : nat) (s' : state) (l' : ll_t) : Prop :=
  valid_list s' l' (pre ++ post) ∧
  calls s' = (td, v) :: calls s ∧
  ll_val_teardown l' = ll_val_teardown l ∧
  ll_val_printer l' = ll_val_printer l.

(** A removal that has taken the node [(a, v)] at index [k] out of [items]. *)
Definition removed (s : state) (l : ll_t) (items : list (positive * Z))
    (k : nat) (v : Z) (r : Z) (s' : state) : Prop :=
  ∃ a td l',
    items !! k = Some (a, v) ∧
    ll_val_teardown l = Some td ∧
    r = ll_len l - 1 ∧
    valid_list s' l' (delete k items) ∧
    ll_len l' = ll_len l - 1 ∧
    calls s' = (td, v) :: calls s.

(** The removals of [ll.c]. *)
Inductive removal : M Z → Prop :=
  | removal_n n : removal (ll_remove_n n)
  | removal_search cond : removal (ll_remove_search cond)
  | removal_find comparator ref_value : removal (ll_remove_find comparator ref_value).

(** ** The public functions as calls *)

(** One constructor for each function a caller has, with its arguments. *)
Inductive call :=
  | c_length
  | c_insert_n (val n : Z)
  | c_insert_first (val : Z)
  | c_insert_last (val : Z)
  | c_remove_n (n : Z)
  | c_remove_first
  | c_pop_first
  | c_remove_search (cond : Z → Z)
  | c_get_n (n : Z)
  | c_get_first
  | c_map (f : gen_fun_t)
  | c_print
  | c_find (comparator : Z → Z → Z) (ref_value : Z)
  | c_remove_find (comparator : Z → Z → Z) (ref_value : Z)
  | c_clear
  | c_delete.

(** A call run for its effect on the world. *)
Definition ignore {A} (m : M A) : M unit := m ≫= λ _, mret tt.

Definition exec (c : call) : M unit :=
  match c with
  | c_length => ignore ll_length
  | c_insert_n val n => ignore (ll_insert_n val n)
  | c_insert_first val => ignore (ll_insert_first val)
  | c_insert_last val => ignore (ll_insert_last val)
  | c_remove_n n => ignore (ll_remove_n n)
  | c_remove_first => ignore ll_remove_first
  | c_pop_first => ignore ll_pop_first
  | c_remove_search cond => ignore (ll_remove_search cond)
  | c_get_n n => ignore (ll_get_n n)
  | c_get_first => ignore ll_get_first
  | c_map f => ll_map f
  | c_print => ll_print
  | c_find comparator ref_value => ignore (ll_find comparator ref_value)
  | c_remove_find comparator ref_value => ignore (ll_remove_find comparator ref_value)
  | c_clear => ll_clear
  | c_delete => ll_delete
  end.

(** What ll.h asks of the index of a call, on the list [l] it is made on:
    [0 <= n <= len] to insert, [0 <= n < len] to remove or to get; an
    insertion must leave [len] within [int], and [ll_map] be given a
    function. *)
Definition call_pre (c : call) (l : ll_t) : Prop :=
  match c with
  | c_insert_n _ n => 0 ≤ n ≤ ll_len l ∧ ll_len l < INT_MAX
  | c_insert_first _ | c_insert_last _ => ll_len l < INT_MAX
  | c_remove_n n | c_get_n n => 0 ≤ n < ll_len l
  | c_remove_first => 0 < ll_len l
  | c_map f => is_Some f
  | _ => True
  end.

(** What the type [int] and the range of [len] ask of a call: indices are
    [int]s, and an insertion leaves [len] within [int]. *)
Definition call_typed (c : call) (l : ll_t) : Prop :=
  match c with
  | c_insert_n _ n => INT_MIN ≤ n ≤ INT_MAX ∧ ll_len l < INT_MAX
  | c_insert_first _ | c_insert_last _ => ll_len l < INT_MAX
  | c_remove_n n | c_get_n n => INT_MIN ≤ n ≤ INT_MAX
  | _ => True
  end.

(** The worlds a caller gets to: [ll_new] with a teardown callback, then
    calls on the list for as long as it is allocated, with arguments of
    their types, in or out of the range ll.h gives for an index; a call
    that does not return ends the run. *)
Inductive reachable : state → Prop :=
  | reach_new td junk s0 s :
      nodes_unlocked (heap s0) →
      ll_new (Some td) junk s0 = Ok tt s →
      reachable s
  | reach_call s l c s' :
      reachable s →
      list_mem s = Some l → call_typed c l →
      exec c s = Ok tt s' →
      reachable s'.

(** The structural invariant: while the list is valid, the nodes reachable
    from [hd] form a finite chain without repetition and [len] is their
    number. *)
Definition ll_inv (s : state) : Prop :=
  ∀ l, list_mem s = Some l → ll_valid_flag l = VALID →
  ∃ items, chain (heap s) (ll_hd l) items ∧
           NoDup items.*1 ∧
           ll_len l = Z.of_nat (length items).

(** What holds between two calls: the list is valid up to its lock, or it is
    as [ll_clear] left it, or it has been released. *)
Definition coherent (s : state) : Prop :=
  match list_mem s with
  | None => True
  | Some l =>
      match ll_valid_flag l with
      | VALID => ∃ items, valid_list (unlock_list s) (set_m Unlocked l) items
      | INVALID => l = LL 0 None Unlocked None None INVALID
      end
  end.

(** ** Runs of calls, and the nodes they leave allocated *)

(** [calls_from s s']: the world [s'] is what calls of the public functions
    that return, with arguments of their types, make of [s]. *)
Inductive calls_from (s : state) : state → Prop :=
  | calls_none : calls_from s s
  | calls_step s1 l c s2 :
      calls_from s s1 →
      list_mem s1 = Some l → call_typed c l →
      exec c s1 = Ok tt s2 →
      calls_from s s2.

(** While the list is valid, every allocated node is one of its chain:
    nothing has been left behind out of reach. *)
Definition no_garbage (s : state) : Prop :=
  ∀ l, list_mem s = Some l → ll_valid_flag l = VALID →
  ∃ items, chain (heap s) (ll_hd l) items ∧ dom (heap s) = list_to_set items.*1.

(** ** Deciding validity of a given world *)

(** [valid_list] as a test that can be run on a given world. *)
Global Instance ll_node_eq_dec : EqDecision ll_node.
Proof. solve_decision. Defined.
Global Instance ll_t_eq_dec : EqDecision ll_t.
Proof. solve_decision. Defined.

Fixpoint chainb (h : gmap positive ll_node) (p : node_ptr)
    (items : list (positive * Z)) : bool :=
  match items with
  | [] => bool_decide (p = None)
  | (a, v) :: rest =>
      bool_decide (p = Some a) &&
      match h !! a with
      | Some nd => bool_decide (node_val nd = v) && chainb h (node_nxt nd) rest
      | None => false
      end
  end.

Definition nodes_unlockedb (h : gmap positive ll_node) : bool :=
  bool_decide (map_Forall (λ _ nd, node_m nd = Unlocked) h).

Definition valid_listb (s : state) (l : ll_t) (items : list (positive * Z)) : bool :=
  bool_decide (list_mem s = Some l) &&
  bool_decide (ll_valid_flag l = VALID) &&
  chainb (heap s) (ll_hd l) items &&
  bool_decide (ll_len l = Z.of_nat (length items)) &&
  bool_decide (ll_len l ≤ INT_MAX) &&
  bool_decide (is_Some (ll_val_teardown l)) &&
  bool_decide (ll_m l = Unlocked) &&
  nodes_unlockedb (heap s).

(** ** Worlds used as examples *)

(** The list as [ll_new] leaves it, with callback 1 for teardown. *)
Definition empty_list : ll_t := LL 0 None Unlocked (Some 1%nat) None VALID.
Definition empty_world : state := State (Some empty_list) ∅ [].

(** A list of the payloads 10, 20, 30 in the nodes at 1, 2, 3. *)
Definition three_list : ll_t := LL 3 (Some 1%positive) Unlocked (Some 1%nat) None VALID.
Definition three_heap : gmap positive ll_node :=
  <[1%positive := Node 10 (Some 2%positive) Unlocked]>
  (<[2%positive := Node 20 (Some 3%positive) Unlocked]>
  (<[3%positive := Node 30 None Unlocked]> ∅)).
Definition three_items : list (positive * Z) :=
  [(1%positive, 10); (2%positive, 20); (3%positive, 30)].
Definition three_world : state := State (Some three_list) three_heap [].

(** The worlds after [ll_new] and [ll_insert_first] of 5, after a
    [ll_remove_search] that then finds nothing and keeps the list's lock, and
    after [ll_insert_last] of 6. *)
Definition one_list (k : rwlock) : ll_t :=
  LL 1 (Some 1%positive) k (Some 1%nat) None VALID.
Definition one_world (k : rwlock) : state :=
  State (Some (one_list k)) (<[1%positive := Node 5 None Unlocked]> ∅) [].
Definition two_world : state :=
  State (Some (LL 2 (Some 1%positive) Unlocked (Some 1%nat) None VALID))
        (<[1%positive := Node 5 (Some 2%positive) Unlocked]>
           (<[2%positive := Node 6 None Unlocked]> ∅))
        [].

(** The three-node list with callback 2 bound as its printer. *)
Definition printing_list : ll_t := set_val_printer (Some 2%nat) three_list.
Definition printing_world : state := State (Some printing_list) three_heap [].

(** The list as [ll_clear] leaves it, and the same after a
    [ll_insert_first] of 5. *)
Definition cleared_list : ll_t := LL 0 None Unlocked None None INVALID.
Definition cleared_world : state := State (Some cleared_list) ∅ [].
Definition cleared_world_5 : state :=
  State (Some cleared_list) (<[1%positive := Node 5 None Unlocked]> ∅) [].

(** The [int]s of [main] in [ll.c]: [a] to [i] at the addresses 1 to 9 and
    [dummy_value] at 10, with the values they are initialised to. *)
Definition main_ints (p : Z) : Z :=
  match p with
  | 1 => 0 | 2 => 1 | 3 => 2 | 4 => 3 | 5 => 4 | 6 => 5 | 7 => 6
  | 8 => 3 | 9 => 3 | 10 => 42
  | _ => 0
  end.

Definition num_equals_3 (n : Z) : Z := if main_ints n =? 3 then 1 else 0.

Definition num_equals (n ref : Z) : Z := main_ints n - main_ints ref.

(** The calls of [main] in their order, with [num_teardown] as callback 1 and
    [num_printer] as callback 2, and what they return: first the values
    [main] tests, then those it drops. *)
Definition main_calls : M (list Z * list Z) :=
  ll_new (Some 1%nat) None;;
  list_upd (set_val_printer (Some 2%nat));;
  ll_insert_first 3;;
  t1 ← ll_get_first;
  list ← list_get; let t2 := ll_len list in
  ll_insert_first 2;; ll_insert_first 1;;
  t3 ← ll_get_first;
  list ← list_get; let t4 := ll_len list in
  ll_insert_last 4;; ll_insert_last 5;; ll_insert_last 6;;
  t5 ← ll_get_n 5;
  list ← list_get; let t6 := ll_len list in
  ll_insert_n 7 6;;
  g0 ← ll_get_n 0; g1 ← ll_get_n 1; g2 ← ll_get_n 2; g3 ← ll_get_n 3;
  g4 ← ll_get_n 4; g5 ← ll_get_n 5; g6 ← ll_get_n 6;
  r1 ← ll_remove_first;
  r2 ← ll_remove_n 1;
  r3 ← ll_remove_n 2;
  r4 ← ll_remove_n 5;
  r5 ← ll_remove_search num_equals_3;
  r6 ← ll_insert_first 8;
  r7 ← ll_insert_last 9;
  r8 ← ll_remove_search num_equals_3;
  r9 ← ll_remove_search num_equals_3;
  f1 ← ll_find num_equals 6;
  f2 ← ll_find num_equals 10;
  r10 ← ll_remove_find num_equals 6;
  ll_print;;
  ll_clear;;
  c1 ← ll_insert_last 8;
  c2 ← ll_insert_last 9;
  c3 ← ll_remove_first;
  ll_print;;
  ll_delete;;
  mret ([t1; t2; t3; t4; t5; t6; g0; g1; g2; g3; g4; g5; g6],
        [r1; r2; r3; r4; r5; r6; r7; r8; r9; f1; f2; r10; c1; c2; c3]).

(** * Facts about the functions *)

(** ** Facts about chains *)

Section chains.
Implicit Types (h : gmap positive ll_node) (p q r : node_ptr).
Implicit Types (items pre post : list (positive * Z)) (a b : positive).

Lemma lseg_app h p q r pre post :
  lseg h p q pre → lseg h q r post → lseg h p r (pre ++ post).
Proof.
  revert p. induction pre as [|[a v] pre IH]; intros p; simpl.
  - by intros ->.
  - intros (-> & nd & Ha & Hv & Hseg) Hpost. split; [done|].
    exists nd. eauto.
Qed.

Lemma lseg_app_inv h p r pre post :
  lseg h p r (pre ++ post) → ∃ q, lseg h p q pre ∧ lseg h q r post.
Proof.
  revert p. induction pre as [|[a v] pre IH]; intros p; simpl.
  - intros H. by exists p.
  - intros (-> & nd & Ha & Hv & Hseg).
    destruct (IH _ Hseg) as (q & Hpre & Hpost).
    exists q. split; [|done]. split; [done|]. exists nd. eauto.
Qed.

Lemma chain_det h p items1 items2 :
  chain h p items1 → chain h p items2 → items1 = items2.
Proof.
  unfold chain. revert p items2.
  induction items1 as [|[a v] items1 IH]; intros p [|[b w] items2]; simpl.
  - done.
  - intros -> (? & _). done.
  - intros (-> & _) ?. done.
  - intros (-> & nd & Ha & Hv & H1) (? & nd' & Hb & Hw & H2).
    simplify_eq. f_equal. eauto.
Qed.

(** A chain that ends never comes back to a node it went through. *)
Lemma chain_head_fresh h a v rest :
  chain h (Some a) ((a, v) :: rest) → a ∉ rest.*1.
Proof.
  intros Hch Hin.
  apply list_elem_of_fmap in Hin as ([a' v'] & Heq & Hin). simpl in Heq. subst a'.
  apply list_elem_of_split in Hin as (r1 & r2 & ->).
  pose proof Hch as (_ & nd & Ha & Hv & Hrest).
  apply lseg_app_inv in Hrest as (q & _ & Hq).
  pose proof Hq as (-> & _).
  pose proof (chain_det _ _ _ _ Hch Hq) as Heq.
  apply (f_equal length) in Heq. simpl in Heq.
  rewrite length_app in Heq. simpl in Heq. lia.
Qed.

Lemma chain_NoDup h p items : chain h p items → NoDup items.*1.
Proof.
  revert p. induction items as [|[a v] items IH]; intros p Hch; simpl.
  - constructor.
  - pose proof Hch as (-> & nd & Ha & Hv & Hrest).
    constructor; [by eapply chain_head_fresh|by eapply IH].
Qed.

Lemma lseg_insert_frame h p q items a nd :
  a ∉ items.*1 → lseg h p q items → lseg (<[a := nd]> h) p q items.
Proof.
  revert p. induction items as [|[b w] items IH]; intros p; simpl; [done|].
  intros Hnin (-> & nd' & Hb & Hw & Hseg).
  apply not_elem_of_cons in Hnin as [Hne Hnin].
  split; [done|]. exists nd'. rewrite lookup_insert_ne by done. eauto.
Qed.

Lemma lseg_delete_frame h p q items a :
  a ∉ items.*1 → lseg h p q items → lseg (delete a h) p q items.
Proof.
  revert p. induction items as [|[b w] items IH]; intros p; simpl; [done|].
  intros Hnin (-> & nd' & Hb & Hw & Hseg).
  apply not_elem_of_cons in Hnin as [Hne Hnin].
  split; [done|]. exists nd'. rewrite lookup_delete_ne by done. eauto.
Qed.

Lemma lseg_allocated h p q items a :
  lseg h p q items → a ∈ items.*1 → is_Some (h !! a).
Proof.
  revert p. induction items as [|[b w] items IH]; intros p; simpl.
  - intros _ Hin. by apply elem_of_nil in Hin.
  - intros (-> & nd & Hb & Hw & Hseg) Hin.
    apply elem_of_cons in Hin as [->|Hin]; eauto.
Qed.

(** The nodes of a chain are allocated, so there are no more of them than
    the heap holds. *)
Lemma chain_length_le_size h p items :
  chain h p items → (length items ≤ size h)%nat.
Proof.
  intros Hch.
  pose proof (chain_NoDup _ _ _ Hch) as Hnd.
  rewrite <- (length_fmap fst items).
  rewrite <- (size_list_to_set (C := gset positive) _ Hnd).
  rewrite <- (size_dom (D := gset positive) h).
  apply subseteq_size. intros a Ha.
  apply elem_of_list_to_set in Ha. apply elem_of_dom.
  by eapply lseg_allocated.
Qed.

(** The node at index [k] of a chain. *)
Lemma chain_lookup h p items k a v :
  chain h p items → items !! k = Some (a, v) →
  ∃ nd, h !! a = Some nd ∧ node_val nd = v ∧
        lseg h p (Some a) (take k items) ∧
        chain h (node_nxt nd) (drop (S k) items).
Proof.
  intros Hch Hk.
  rewrite <- (take_drop_middle _ _ _ Hk) in Hch.
  apply lseg_app_inv in Hch as (q & Hpre & (-> & nd & Ha & Hv & Hpost)).
  exists nd. eauto.
Qed.
End chains.

(** ** Stepping through the macros *)

(** Run the monad on a state whose shape is known. *)
Ltac mred :=
  repeat (progress (unfold mbind, M_bind, mret, M_ret, raise, assert, CHECK_VALID,
                      RWLOCK, RWUNLOCK, pthread_rwlock_destroy, chain_fuel,
                      list_get, list_upd, node_get, node_upd, free_node, invoke;
                    cbn)).

(** Run it as far as the hypotheses about the list and the heap allow. *)
Ltac mrun :=
  repeat first
    [ progress mred
    | rewrite lookup_insert_eq
    | rewrite lookup_insert_ne by done
    | rewrite lookup_delete_eq
    | rewrite lookup_delete_ne by done
    | match goal with
      | H : ?h !! ?a = _ |- context [?h !! ?a] => rewrite H
      | H : ll_valid_flag ?l = _ |- context [ll_valid_flag ?l] => rewrite H
      | H : ll_hd ?l = _ |- context [ll_hd ?l] => rewrite H
      | H : node_nxt ?nd = _ |- context [node_nxt ?nd] => rewrite H
      | H : ll_val_teardown ?l = Some _ |- context [ll_val_teardown ?l] => rewrite H
      end ].

Lemma CHECK_VALID_valid {A} lt (r : A) (body : M A) l h c :
  ll_valid_flag l = VALID →
  CHECK_VALID lt r body (State (Some l) h c)
  = body (State (Some (set_m (Locked lt) l)) h c).
Proof. intros Hv. unfold CHECK_VALID. mred. by rewrite Hv. Qed.

Lemma int_wrap_id z : INT_MIN ≤ z ≤ INT_MAX → int_wrap z = z.
Proof.
  unfold INT_MIN, INT_MAX, int_wrap. intros Hz.
  rewrite Z.mod_small by lia. lia.
Qed.

Lemma set_m_id l : ll_m l = Unlocked → set_m Unlocked l = l.
Proof. destruct l; simpl; by intros ->. Qed.

Lemma unlock_lock_node lt nd :
  node_m nd = Unlocked → set_node_m Unlocked (set_node_m (Locked lt) nd) = nd.
Proof. destruct nd; simpl; by intros ->. Qed.

(** Locking a node and releasing it again gives the heap back. *)
Lemma heap_relock (h : gmap positive ll_node) a nd nd' :
  h !! a = Some nd → <[a := nd]> (<[a := nd']> h) = h.
Proof. intros Ha. rewrite insert_insert_eq. by apply insert_id. Qed.

(** ** Positional selection *)

Section select.
Context (lt : locktype_t) (c : list (nat * Z)).
Context (h : gmap positive ll_node) (Hunl : nodes_unlocked h).

(** The hand-over-hand loop, entered with node [a] locked and [n] steps
    counted from it: it stops on the node [n - 1] links further, holding
    that node's lock, or runs off the end of the chain and lets go of
    every lock. *)
Lemma ll_select_loop_spec rest : ∀ l fuel n a nd,
  h !! a = Some nd →
  chain h (node_nxt nd) rest →
  a ∉ rest.*1 →
  1 ≤ n → (Z.to_nat n ≤ fuel)%nat →
  ll_select_loop fuel (Some a) n lt
    (State (Some l) (<[a := set_node_m (Locked lt) nd]> h) c)
  = match ((a, node_val nd) :: rest) !! Z.to_nat (n - 1) with
    | Some (b, _) =>
        match h !! b with
        | Some ndb =>
            Ok (0, Some b)
               (State (Some l) (<[b := set_node_m (Locked lt) ndb]> h) c)
        | None => Fault BadPointer
        end
    | None => Ok (-1, None) (State (Some (set_m Unlocked l)) h c)
    end.
Proof using Hunl.
  induction rest as [|[b w] rest IH]; intros l fuel n a nd Ha Hch Hfresh Hn Hfuel.
  - destruct fuel as [|fuel]; [lia|]. simpl.
    destruct (Z.gtb_spec n 1) as [Hgt|Hle].
    + mred. rewrite lookup_insert_eq. mred.
      unfold chain in Hch. simpl in Hch. rewrite Hch. mred.
      rewrite lookup_insert_eq. mred.
      rewrite (unlock_lock_node lt nd) by eauto.
      rewrite heap_relock by done.
      replace (Z.to_nat (n - 1)) with (S (Z.to_nat (n - 2))) by lia.
      done.
    + assert (n = 1) as -> by lia. simpl. by rewrite Ha.
  - destruct fuel as [|fuel]; [lia|]. simpl.
    destruct (Z.gtb_spec n 1) as [Hgt|Hle].
    + pose proof Hch as (Hnxt & ndb & Hb & Hw & Hrest).
      apply not_elem_of_cons in Hfresh as [Hab Hfresh]. simpl in Hab.
      mred. rewrite lookup_insert_eq. mred. rewrite Hnxt. mred.
      rewrite lookup_insert_ne, Hb by done. mred.
      rewrite lookup_insert_ne, lookup_insert_eq by done. mred.
      rewrite (unlock_lock_node lt nd) by eauto.
      rewrite (insert_insert_ne _ a b) by done.
      rewrite heap_relock by done.
      rewrite (IH l fuel (n - 1) b ndb); [|done|done| |lia|lia].
      * replace (Z.to_nat (n - 1)) with (S (Z.to_nat (n - 1 - 1))) by lia.
        by rewrite Hw.
      * eapply chain_head_fresh. split; [done|]. exists ndb. eauto.
    + assert (n = 1) as -> by lia. simpl. by rewrite Ha.
Qed.

(** [ll_select_n_min_1] for [n >= 1] on a valid list: the node at index
    [n - 1] with its lock and the list's lock held, or -1 with every lock
    released when the chain has fewer than [n] nodes. *)
Lemma ll_select_n_min_1_spec l items node n :
  ll_valid_flag l = VALID →
  chain h (ll_hd l) items →
  ll_len l = Z.of_nat (length items) →
  1 ≤ n →
  ll_select_n_min_1 node n lt (State (Some l) h c)
  = match items !! Z.to_nat (n - 1) with
    | Some (b, _) =>
        match h !! b with
        | Some ndb =>
            Ok (0, Some b)
               (State (Some (set_m (Locked lt) l))
                      (<[b := set_node_m (Locked lt) ndb]> h) c)
        | None => Fault BadPointer
        end
    | None => Ok (-1, None) (State (Some (set_m Unlocked l)) h c)
    end.
Proof using Hunl.
  intros Hv Hch Hlen Hn. unfold ll_select_n_min_1.
  destruct (Z.ltb_spec n 0); [lia|]. destruct (Z.eqb_spec n 0); [lia|].
  rewrite CHECK_VALID_valid by done. mred.
  destruct items as [|[a v] rest].
  - unfold chain in Hch. simpl in Hch. rewrite Hch. mred.
    rewrite Hlen. mred. done.
  - pose proof Hch as (Hhd & nd & Ha & Hv' & Hrest).
    rewrite Hhd. mred. rewrite Ha. mred.
    rewrite (ll_select_loop_spec rest _ (Z.to_nat n) n a nd); [|done|done| |lia|lia].
    + rewrite Hv'. reflexivity.
    + apply (chain_head_fresh h a v). rewrite <- Hhd. exact Hch.
Qed.
End select.

(** ** Heaps under the updates the functions make *)

Section heaps.
Implicit Types (h : gmap positive ll_node) (p q : node_ptr).
Implicit Types (items : list (positive * Z)) (a b : positive).

Lemma nodes_unlocked_insert h a nd :
  nodes_unlocked h → node_m nd = Unlocked → nodes_unlocked (<[a := nd]> h).
Proof.
  intros Hunl Hnd i x. rewrite lookup_insert. case_decide; [|by apply Hunl].
  by intros [= <-].
Qed.

Lemma nodes_unlocked_delete h a :
  nodes_unlocked h → nodes_unlocked (delete a h).
Proof.
  intros Hunl i x. rewrite lookup_delete. case_decide; [done|by apply Hunl].
Qed.

Lemma lseg_not_allocated h p q items b :
  lseg h p q items → h !! b = None → b ∉ items.*1.
Proof.
  intros Hseg Hb Hin. destruct (lseg_allocated _ _ _ _ _ Hseg Hin) as [x Hx].
  congruence.
Qed.

(** The parts of a chain before and after its node [k] do not hold that
    node. *)
Lemma chain_lookup_fresh h p items k a v :
  chain h p items → items !! k = Some (a, v) →
  (a ∉ (take k items).*1) ∧ (a ∉ (drop (S k) items).*1).
Proof.
  intros Hch Hk. apply chain_NoDup in Hch.
  rewrite <- (take_drop_middle _ _ _ Hk) in Hch.
  rewrite fmap_app, fmap_cons in Hch. simpl in Hch.
  apply NoDup_app in Hch as (_ & Hpre & Hpost).
  apply NoDup_cons in Hpost as [Hpost _]. split; [|done].
  intros Hin. apply (Hpre _ Hin). left.
Qed.

(** Linking a new node [b] after node [k]. *)
Lemma chain_splice h p items k a w b v nd :
  chain h p items → items !! k = Some (a, w) →
  h !! a = Some nd → h !! b = None →
  chain (<[a := Node (node_val nd) (Some b) Unlocked]>
           (<[b := Node v (node_nxt nd) Unlocked]> h)) p
        (take (S k) items ++ (b, v) :: drop (S k) items).
Proof.
  intros Hch Hk Ha Hb.
  destruct (chain_lookup _ _ _ _ _ _ Hch Hk) as (nd' & Ha' & Hw & Hpre & Hpost).
  destruct (chain_lookup_fresh _ _ _ _ _ _ Hch Hk) as [Hapre Hapost].
  assert (a ≠ b) by congruence.
  rewrite Ha in Ha'. injection Ha' as <-.
  rewrite (take_S_r _ _ _ Hk), <- app_assoc. simpl.
  eapply lseg_app.
  - apply lseg_insert_frame; [done|].
    apply lseg_insert_frame; [by eapply lseg_not_allocated|done].
  - split; [done|]. eexists. rewrite lookup_insert_eq. split; [done|]. simpl.
    split; [done|]. split; [done|]. eexists.
    rewrite lookup_insert_ne, lookup_insert_eq by done. split; [done|]. simpl.
    split; [done|].
    apply lseg_insert_frame; [done|].
    apply lseg_insert_frame; [by eapply lseg_not_allocated|done].
Qed.
End heaps.

Ltac heap_eq :=
  apply map_eq; intros ?;
  repeat (rewrite lookup_insert || rewrite lookup_delete);
  repeat case_decide; simplify_eq; try done.

Lemma length_splice {A} (l : list A) k x :
  (k ≤ length l)%nat → length (take k l ++ x :: drop k l) = S (length l).
Proof.
  intros Hk. rewrite length_app, length_cons, length_take, length_drop. lia.
Qed.

(** ** Insertion *)

(** [ll_insert_n] at an index from 0 to the length: the new node, at the
    address [malloc] hands out, sits at index [n]. *)
Lemma ll_insert_n_spec s l items v n :
  valid_list s l items → 0 ≤ n ≤ ll_len l → ll_len l < INT_MAX →
  ∃ s' l',
    ll_insert_n v n s = Ok (ll_len l + 1) s' ∧
    valid_list s' l'
      (take (Z.to_nat n) items ++ (fresh (dom (heap s)), v) :: drop (Z.to_nat n) items) ∧
    calls s' = calls s ∧
    ll_val_teardown l' = ll_val_teardown l ∧ ll_val_printer l' = ll_val_printer l.
Proof.
  intros [Hmem Hflag Hch Hlen Hrange Htd Hlock Hunl] Hn Hmax.
  destruct s as [lm h c]. simpl in *. subst lm.
  set (b := fresh (dom h)).
  assert (Hb : h !! b = None) by (apply not_elem_of_dom, is_fresh).
  assert (Hw : int_wrap (ll_len l + 1) = ll_len l + 1).
  { apply int_wrap_id. unfold INT_MIN, INT_MAX in *. lia. }
  unfold ll_insert_n. mred. fold b.
  destruct (Z.eqb_spec n 0) as [->|Hn0].
  - mred. rewrite Hflag. mred. rewrite lookup_insert_eq. mred.
    rewrite Hw, insert_insert_eq.
    eexists _, _. split; [reflexivity|].
    change (Z.to_nat 0) with 0%nat.
    split; [constructor; [reflexivity|..]|done]; simpl; try done.
    + split; [done|]. eexists. rewrite lookup_insert_eq. split; [done|].
      split; [done|]. simpl.
      apply lseg_insert_frame; [by eapply lseg_not_allocated|done].
    + rewrite Hlen, drop_0. lia.
    + lia.
    + by apply nodes_unlocked_insert.
  - assert (Hk : (Z.to_nat (n - 1) < length items)%nat) by lia.
    apply lookup_lt_is_Some_2 in Hk as [[a w] Hk].
    destruct (chain_lookup _ _ _ _ _ _ Hch Hk) as (nd & Ha & Hndv & _ & _).
    assert (a ≠ b) by congruence.
    assert (Hunl1 : nodes_unlocked (<[b := Node v None Unlocked]> h))
      by (by apply nodes_unlocked_insert).
    rewrite (ll_select_n_min_1_spec l_write c _ Hunl1 l items);
      [ |done|by apply lseg_insert_frame; [eapply lseg_not_allocated|]|done|lia].
    rewrite Hk, lookup_insert_ne, Ha by done. mred.
    rewrite lookup_insert_eq. mred.
    rewrite lookup_insert_ne, lookup_insert_eq by done. mred.
    rewrite lookup_insert_ne, lookup_insert_eq by done. mred.
    rewrite lookup_insert_eq. mred.
    rewrite Hw.
    replace (Z.to_nat n) with (S (Z.to_nat (n - 1))) by lia.
    match goal with |- context [State _ ?H _] =>
      replace H with (<[a := Node (node_val nd) (Some b) Unlocked]>
                        (<[b := Node v (node_nxt nd) Unlocked]> h)) by heap_eq
    end.
    eexists _, _. split; [reflexivity|].
    split; [constructor; [reflexivity|..]|done]; simpl; try done.
    + by eapply chain_splice.
    + rewrite Hlen, length_splice by lia. lia.
    + lia.
    + by repeat apply nodes_unlocked_insert.
Qed.


(** Outside 0..length the new node is released again and nothing is left of
    the call. *)
Lemma ll_insert_n_out_of_range s l items v n :
  valid_list s l items → n < 0 ∨ ll_len l < n →
  ll_insert_n v n s = Ok (-1) s.
Proof.
  intros [Hmem Hflag Hch Hlen Hrange Htd Hlock Hunl] Hn.
  destruct s as [lm h c]. simpl in *. subst lm.
  set (b := fresh (dom h)).
  assert (Hb : h !! b = None) by (apply not_elem_of_dom, is_fresh).
  unfold ll_insert_n. mred. fold b.
  destruct (Z.eqb_spec n 0) as [->|Hn0]; [lia|].
  destruct Hn as [Hn|Hn].
  - unfold ll_select_n_min_1. destruct (Z.ltb_spec n 0); [|lia]. mred.
    rewrite lookup_insert_eq. mred. by rewrite delete_insert_id.
  - assert (Hunl1 : nodes_unlocked (<[b := Node v None Unlocked]> h))
      by (by apply nodes_unlocked_insert).
    rewrite (ll_select_n_min_1_spec l_write c _ Hunl1 l items);
      [ |done|by apply lseg_insert_frame; [eapply lseg_not_allocated|]|done|lia].
    rewrite lookup_ge_None_2 by lia. mred.
    rewrite lookup_insert_eq. mred.
    by rewrite delete_insert_id, set_m_id.
Qed.

(** ** Removal by index *)

Section unlink.
Implicit Types (h : gmap positive ll_node) (p q : node_ptr).
Implicit Types (items : list (positive * Z)) (a b : positive).

(** Dropping the first node of a chain. *)
Lemma chain_behead h a v rest nd :
  chain h (Some a) ((a, v) :: rest) → h !! a = Some nd →
  chain (delete a h) (node_nxt nd) rest.
Proof.
  intros Hch Ha. pose proof Hch as (_ & nd' & Ha' & _ & Hrest).
  rewrite Ha in Ha'. injection Ha' as <-.
  apply lseg_delete_frame; [by eapply chain_head_fresh|done].
Qed.

(** Linking node [k] to the successor of node [k + 1] and releasing the
    latter. *)
Lemma chain_unlink h p items k a w t v nd nt :
  chain h p items →
  items !! k = Some (a, w) → items !! S k = Some (t, v) →
  h !! a = Some nd → h !! t = Some nt →
  chain (delete t (<[a := Node (node_val nd) (node_nxt nt) Unlocked]> h)) p
        (delete (S k) items).
Proof.
  intros Hch Hk Hk1 Ha Ht.
  destruct (chain_lookup _ _ _ _ _ _ Hch Hk) as (nd' & Ha' & Hw & Hpre & _).
  destruct (chain_lookup _ _ _ _ _ _ Hch Hk1) as (nt' & Ht' & Hv & _ & Hpost).
  rewrite Ha in Ha'. injection Ha' as <-.
  rewrite Ht in Ht'. injection Ht' as <-.
  destruct (chain_lookup_fresh _ _ _ _ _ _ Hch Hk) as [Hapre Hapost].
  destruct (chain_lookup_fresh _ _ _ _ _ _ Hch Hk1) as [Htpre Htpost].
  rewrite (take_S_r _ _ _ Hk), fmap_app in Htpre.
  apply not_elem_of_app in Htpre as [Htpre Hta].
  assert (t ≠ a) by (intros ->; apply Hta; left).
  rewrite (drop_S _ _ _ Hk1), fmap_cons in Hapost.
  apply not_elem_of_cons in Hapost as [_ Hapost].
  rewrite delete_take_drop, (take_S_r _ _ _ Hk), <- app_assoc. simpl.
  eapply lseg_app.
  - apply lseg_delete_frame; [done|]. by apply lseg_insert_frame.
  - split; [done|]. eexists.
    rewrite lookup_delete_ne, lookup_insert_eq by done. split; [done|].
    split; [done|]. simpl.
    apply lseg_delete_frame; [done|]. by apply lseg_insert_frame.
Qed.
End unlink.

(** [ll_remove_n] at an index below the length: the node at index [n] is
    unlinked and released, and the teardown callback gets its payload. *)
Lemma ll_remove_n_spec s l items n a v td :
  valid_list s l items → 0 ≤ n →
  items !! Z.to_nat n = Some (a, v) →
  ll_val_teardown l = Some td →
  ∃ s' l',
    ll_remove_n n s = Ok (ll_len l - 1) s' ∧
    valid_list s' l' (delete (Z.to_nat n) items) ∧
    calls s' = (td, v) :: calls s ∧
    ll_val_teardown l' = ll_val_teardown l ∧ ll_val_printer l' = ll_val_printer l.
Proof.
  intros [Hmem Hflag Hch Hlen Hrange Htd Hlock Hunl] Hn Hk Htd'.
  destruct s as [lm h c]. simpl in *. subst lm.
  pose proof (lookup_lt_Some _ _ _ Hk) as Hlt.
  assert (Hw : int_wrap (ll_len l - 1) = ll_len l - 1).
  { apply int_wrap_id. unfold INT_MIN, INT_MAX in *. lia. }
  destruct (chain_lookup _ _ _ _ _ _ Hch Hk) as (nt & Ht & Hv & _ & _).
  unfold ll_remove_n. destruct (Z.eqb_spec n 0) as [->|Hn0].
  - change (Z.to_nat 0) with 0%nat in *.
    destruct items as [|[a' v'] rest]; [done|]. simpl in Hk. injection Hk as -> ->.
    pose proof Hch as (Hhd & _).
    mrun. rewrite Hw, insert_id, Hv by done.
    eexists _, _. split; [reflexivity|].
    split; [constructor; [reflexivity|..]|done]; simpl; try done.
    + eapply chain_behead; [|done]. by rewrite <- Hhd.
    + simpl in Hlen. lia.
    + lia.
    + by apply nodes_unlocked_delete.
  - assert (Hk' : (Z.to_nat (n - 1) < length items)%nat) by lia.
    apply lookup_lt_is_Some_2 in Hk' as [[p w] Hk'].
    replace (Z.to_nat n) with (S (Z.to_nat (n - 1))) in * by lia.
    destruct (chain_lookup _ _ _ _ _ _ Hch Hk') as (nd & Ha & Hndv & _ & Hpost).
    rewrite (drop_S _ _ _ Hk) in Hpost. destruct Hpost as (Hnxt & _).
    destruct (chain_lookup_fresh _ _ _ _ _ _ Hch Hk') as [_ Hfr].
    rewrite (drop_S _ _ _ Hk), fmap_cons in Hfr.
    apply not_elem_of_cons in Hfr as [Hne _]. simpl in Hne.
    mred.
    rewrite (ll_select_n_min_1_spec l_write c _ Hunl l items); [|done|done|done|lia].
    rewrite Hk'. mrun. rewrite Hw, Hv.
    match goal with |- context [State _ ?H _] =>
      replace H with (delete a (<[p := Node (node_val nd) (node_nxt nt) Unlocked]> h))
    end.
    2:{ apply map_eq; intros i.
        repeat (rewrite lookup_insert || rewrite lookup_delete);
        repeat case_decide; simplify_eq; done. }
    eexists _, _. split; [reflexivity|].
    split; [constructor; [reflexivity|..]|done]; simpl; try done.
    + by eapply chain_unlink.
    + rewrite length_delete by eauto. lia.
    + lia.
    + by apply nodes_unlocked_delete, nodes_unlocked_insert.
Qed.

(** The list block is back to what it was. *)
Ltac same_list :=
  match goal with
  | l : ll_t |- _ => destruct l; simpl in *; subst; reflexivity
  end.

(** Below 0 and above the length [ll_remove_n] gives -1 and leaves
    everything as it was. *)
Lemma ll_remove_n_out_of_range s l items n :
  valid_list s l items → n < 0 ∨ ll_len l < n →
  ll_remove_n n s = Ok (-1) s.
Proof.
  intros [Hmem Hflag Hch Hlen Hrange Htd Hlock Hunl] Hn.
  destruct s as [lm h c]. simpl in *. subst lm.
  unfold ll_remove_n. destruct (Z.eqb_spec n 0) as [->|Hn0]; [lia|].
  mred. destruct Hn as [Hn|Hn].
  - unfold ll_select_n_min_1. destruct (Z.ltb_spec n 0); [|lia]. by mred.
  - rewrite (ll_select_n_min_1_spec l_write c _ Hunl l items); [|done|done|done|lia].
    rewrite lookup_ge_None_2 by lia. mred. by rewrite set_m_id.
Qed.

(** At the length itself, the empty list at index 0 included, it goes through
    a null pointer: for [n = 0] in [list->hd = tmp->nxt], otherwise in
    [tmp->val], after the selection has found the last node and its empty
    successor has been taken for the node to remove. *)
Lemma ll_remove_n_at_length s l items n :
  valid_list s l items → n = ll_len l →
  ll_remove_n n s = Fault NullDeref.
Proof.
  intros [Hmem Hflag Hch Hlen Hrange Htd Hlock Hunl] Hn.
  destruct s as [lm h c]. simpl in *. subst lm.
  unfold ll_remove_n. destruct (Z.eqb_spec n 0) as [->|Hn0].
  - destruct items as [|? ?]; [|simpl in Hlen; lia].
    unfold chain in Hch. simpl in Hch. by mrun.
  - assert (Hk : (Z.to_nat (n - 1) < length items)%nat) by lia.
    apply lookup_lt_is_Some_2 in Hk as [[p w] Hk].
    destruct (chain_lookup _ _ _ _ _ _ Hch Hk) as (nd & Ha & Hndv & _ & Hpost).
    rewrite drop_ge in Hpost by lia. unfold chain in Hpost. simpl in Hpost.
    mred.
    rewrite (ll_select_n_min_1_spec l_write c _ Hunl l items); [|done|done|done|lia].
    rewrite Hk. by mrun.
Qed.

(** ** Popping the head *)

Lemma ll_pop_first_spec s l a v rest :
  valid_list s l ((a, v) :: rest) →
  ∃ s' l',
    ll_pop_first s = Ok v s' ∧
    valid_list s' l' rest ∧
    ll_len l' = ll_len l - 1 ∧
    heap s' = delete a (heap s) ∧
    calls s' = calls s ∧
    ll_val_teardown l' = ll_val_teardown l ∧ ll_val_printer l' = ll_val_printer l.
Proof.
  intros [Hmem Hflag Hch Hlen Hrange Htd Hlock Hunl].
  destruct s as [lm h c]. simpl in *. subst lm.
  assert (Hw : int_wrap (ll_len l - 1) = ll_len l - 1).
  { apply int_wrap_id. unfold INT_MIN, INT_MAX in *. lia. }
  pose proof Hch as (Hhd & nd & Ha & Hv & _).
  unfold ll_pop_first. mrun. rewrite Hw, insert_id, Hv by done.
  eexists _, _. split; [reflexivity|].
  split; [constructor; [reflexivity|..]|done]; simpl; try done.
  - eapply chain_behead; [|done]. by rewrite <- Hhd.
  - lia.
  - lia.
  - by apply nodes_unlocked_delete.
Qed.

Lemma ll_pop_first_empty s l :
  valid_list s l [] → ll_pop_first s = Ok NULL s.
Proof.
  intros [Hmem Hflag Hch Hlen Hrange Htd Hlock Hunl].
  destruct s as [lm h c]. simpl in *. subst lm.
  unfold chain in Hch. simpl in Hch.
  unfold ll_pop_first. mrun. same_list.
Qed.

(** ** Length and lookup by index *)

Lemma ll_length_spec s l items :
  valid_list s l items → ll_length s = Ok (ll_len l) s.
Proof.
  intros [Hmem Hflag Hch Hlen Hrange Htd Hlock Hunl].
  destruct s as [lm h c]. simpl in *. subst lm.
  unfold ll_length. mrun. same_list.
Qed.

(** [ll_get_n] at an index from 0 on: the payload of the node at that index,
    or [NULL] when the chain is shorter; all locks are released again. *)
Lemma ll_get_n_spec s l items n :
  valid_list s l items → 0 ≤ n ≤ INT_MAX →
  ll_get_n n s = Ok (default NULL (snd <$> items !! Z.to_nat n)) s.
Proof.
  intros [Hmem Hflag Hch Hlen Hrange Htd Hlock Hunl] Hn.
  destruct s as [lm h c]. simpl in *. subst lm.
  unfold ll_get_n. mred.
  destruct (decide (n = INT_MAX)) as [->|Hmax].
  - rewrite lookup_ge_None_2 by lia. done.
  - rewrite int_wrap_id by (unfold INT_MIN, INT_MAX in *; lia).
    rewrite (ll_select_n_min_1_spec l_read c _ Hunl l items); [|done|done|done|lia].
    replace (Z.to_nat (n + 1 - 1)) with (Z.to_nat n) by lia.
    destruct (items !! Z.to_nat n) as [[a v]|] eqn:Hk; simpl.
    + destruct (chain_lookup _ _ _ _ _ _ Hch Hk) as (nd & Ha & Hv & _ & _).
      mrun. rewrite Hv, unlock_lock_node, heap_relock by eauto.
      do 3 f_equal. same_list.
    + mred. do 3 f_equal. same_list.
Qed.

(** Further below 0 the selection fails before it looks at the list. *)
Lemma ll_get_n_negative s n :
  INT_MIN ≤ n < -1 → ll_get_n n s = Ok NULL s.
Proof.
  intros Hn. unfold ll_get_n. mred.
  rewrite int_wrap_id by (unfold INT_MIN, INT_MAX in *; lia).
  unfold ll_select_n_min_1. destruct (Z.ltb_spec (n + 1) 0); [|lia]. done.
Qed.

(** ** Scanning for a payload *)

Lemma last_ptr_cons d a v pre : last_ptr d ((a, v) :: pre) = last_ptr (Some a) pre.
Proof.
  unfold last_ptr. destruct pre as [|[b w] pre]; [reflexivity|].
  rewrite last_cons_cons.
  destruct (last ((b, w) :: pre)) as [[? ?]|] eqn:E; [done|].
  by apply last_None in E.
Qed.

Section scan.
Context (go_on : Z → bool) (lm : option ll_t) (c : list (nat * Z)).
Context (h : gmap positive ll_node).

(** The loop stops on the first node whose payload ends the scan, with
    [last] on the node before it. *)
Lemma ll_scan_loop_found pre : ∀ fuel last p a nd,
  lseg h p (Some a) pre → h !! a = Some nd →
  Forall (λ x, go_on x.2 = true) pre → go_on (node_val nd) = false →
  (length pre ≤ fuel)%nat →
  ll_scan_loop fuel go_on last p (State lm h c)
  = Ok (last_ptr last pre, Some a) (State lm h c).
Proof.
  induction pre as [|[b w] pre IH]; intros fuel last p a nd Hseg Ha Hpre Hstop Hfuel.
  - simpl in Hseg. subst p. destruct fuel; simpl; mrun; by rewrite Hstop.
  - destruct Hseg as (-> & nb & Hb & Hw & Hseg).
    apply Forall_cons in Hpre as [Hgo Hpre]. simpl in Hgo.
    destruct fuel as [|fuel]; [simpl in Hfuel; lia|].
    simpl. mrun. rewrite Hw, Hgo, last_ptr_cons.
    eapply IH; eauto. simpl in Hfuel. lia.
Qed.

(** When no payload ends the scan, the loop runs off the end. *)
Lemma ll_scan_loop_not_found items : ∀ fuel last p,
  chain h p items →
  Forall (λ x, go_on x.2 = true) items →
  (length items ≤ fuel)%nat →
  ll_scan_loop fuel go_on last p (State lm h c)
  = Ok (last_ptr last items, None) (State lm h c).
Proof.
  induction items as [|[b w] items IH]; intros fuel last p Hch Hall Hfuel.
  - unfold chain in Hch. simpl in Hch. subst p. by destruct fuel.
  - destruct Hch as (-> & nb & Hb & Hw & Hch).
    apply Forall_cons in Hall as [Hgo Hall]. simpl in Hgo.
    destruct fuel as [|fuel]; [simpl in Hfuel; lia|].
    simpl. mrun. rewrite Hw, Hgo, last_ptr_cons.
    eapply IH; eauto. simpl in Hfuel. lia.
Qed.
End scan.

Global Arguments ll_scan_loop : simpl never.

Lemma last_ptr_snoc d pre a v : last_ptr d (pre ++ [(a, v)]) = Some a.
Proof. unfold last_ptr. by rewrite last_snoc. Qed.

Lemma ll_remove_search_found s l pre a v post td cond :
  valid_list s l (pre ++ (a, v) :: post) →
  ll_val_teardown l = Some td →
  Forall (λ x, cond x.2 = 0) pre → cond v ≠ 0 →
  ∃ s' l', ll_remove_search cond s = Ok (ll_len l - 1) s' ∧
           removed_world s l pre post v td s' l'.
Proof.
  intros Hvalid Htd Hpre Hv. unfold removed_world.
    destruct Hvalid as [Hmem Hflag Hch Hlen Hrange _ Hlock Hunl].
    destruct s as [lm h c]. simpl in *. subst lm.
    rewrite length_app in Hlen. simpl in Hlen.
    assert (Hw : int_wrap (ll_len l - 1) = ll_len l - 1).
    { apply int_wrap_id. unfold INT_MIN, INT_MAX in *. lia. }
    pose proof (chain_length_le_size _ _ _ Hch) as Hsize.
    rewrite length_app in Hsize. simpl in Hsize.
    assert (Hk : (pre ++ (a, v) :: post) !! length pre = Some (a, v))
      by (by rewrite list_lookup_middle).
    destruct (chain_lookup _ _ _ _ _ _ Hch Hk) as (nd & Ha & Hndv & Hseg & Hpost).
    rewrite take_app_length in Hseg.
    unfold ll_remove_search. mrun.
    rewrite (ll_scan_loop_found _ _ _ h pre _ _ _ a nd); [|done|done| | |lia].
    2:{ eapply Forall_impl; [exact Hpre|]. simpl. intros x ->. done. }
    2:{ rewrite Hndv. by apply Z.eqb_neq. }
    mrun.
    destruct pre as [|[p w] pre0 _] using rev_ind.
    - simpl in *. pose proof Hch as (Hhd & _). rewrite Hhd.
      rewrite bool_decide_eq_true_2 by done. mrun.
      rewrite Hw, insert_id, Hndv by done.
      eexists _, _. split; [reflexivity|].
      split; [constructor; [reflexivity|..]|done]; simpl; try done.
      + eapply chain_behead; [|done]. by rewrite <- Hhd.
      + lia.
      + lia.
      + by apply nodes_unlocked_delete.
    - rewrite last_ptr_snoc.
      assert (Hkp : ((pre0 ++ [(p, w)]) ++ (a, v) :: post) !! length pre0 = Some (p, w)).
      { rewrite <- app_assoc. simpl. by apply list_lookup_middle. }
      assert (Hka : ((pre0 ++ [(p, w)]) ++ (a, v) :: post) !! S (length pre0) = Some (a, v)).
      { rewrite length_app in Hk. simpl in Hk.
        by replace (S (length pre0)) with (length pre0 + 1)%nat by lia. }
      destruct (chain_lookup _ _ _ _ _ _ Hch Hkp) as (np & Hp & Hnpv & _ & _).
      destruct (chain_lookup_fresh _ _ _ _ _ _ Hch Hka) as [Hfr _].
      assert (Hne : a ≠ p).
      { intros ->. apply Hfr. rewrite (take_S_r _ _ _ Hkp), fmap_app.
        apply elem_of_app. right. left. }
      assert (Hhd : Some a ≠ ll_hd l).
      { intros Heq. apply Hfr.
        destruct pre0 as [|[q u] pre1]; simpl in *.
        - destruct Hch as (Hq & _). rewrite Hq in Heq. injection Heq as ->. left.
        - destruct Hch as (Hq & _). rewrite Hq in Heq. injection Heq as ->. left. }
      rewrite bool_decide_eq_false_2 by done. mrun.
      rewrite Hw, Hndv.
      match goal with |- context [State _ ?H _] =>
        replace H with (delete a (<[p := Node (node_val np) (node_nxt nd) Unlocked]> h))
      end.
      2:{ apply map_eq; intros i.
          repeat (rewrite lookup_insert || rewrite lookup_delete);
          repeat case_decide; simplify_eq; done. }
      eexists _, _. split; [reflexivity|].
      split; [constructor; [reflexivity|..]|done]; simpl; try done.
      + replace ((pre0 ++ [(p, w)]) ++ post)
          with (delete (S (length pre0)) ((pre0 ++ [(p, w)]) ++ (a, v) :: post)).
        * by eapply chain_unlink.
        * replace (S (length pre0)) with (length (pre0 ++ [(p, w)]))
            by (rewrite length_app; simpl; lia).
          apply delete_middle.
      + rewrite !length_app in *. simpl in *. lia.
      + lia.
      + by apply nodes_unlocked_delete, nodes_unlocked_insert.
Qed.

Lemma ll_remove_search_not_found s l items cond :
  valid_list s l items →
  Forall (λ x, cond x.2 = 0) items →
  ll_remove_search cond s
  = Ok (-1) (State (Some (set_m (Locked l_write) l)) (heap s) (calls s)).
Proof.
  intros [Hmem Hflag Hch Hlen Hrange _ Hlock Hunl] Hall.
  destruct s as [lm h c]. simpl in *. subst lm.
  pose proof (chain_length_le_size _ _ _ Hch) as Hsize.
  unfold ll_remove_search. mrun.
  rewrite (ll_scan_loop_not_found _ _ _ h items); [done|done| |lia].
  eapply Forall_impl; [exact Hall|]. simpl. intros x ->. done.
Qed.

Lemma ll_remove_find_found s l pre a v post td comparator ref_value :
  valid_list s l (pre ++ (a, v) :: post) →
  ll_val_teardown l = Some td →
  Forall (λ x, comparator x.2 ref_value ≠ 0) pre → comparator v ref_value = 0 →
  ∃ s' l', ll_remove_find comparator ref_value s = Ok (ll_len l - 1) s' ∧
           removed_world s l pre post v td s' l'.
Proof.
  intros Hvalid Htd Hpre Hv. unfold removed_world.
    destruct Hvalid as [Hmem Hflag Hch Hlen Hrange _ Hlock Hunl].
    destruct s as [lm h c]. simpl in *. subst lm.
    rewrite length_app in Hlen. simpl in Hlen.
    assert (Hw : int_wrap (ll_len l - 1) = ll_len l - 1).
    { apply int_wrap_id. unfold INT_MIN, INT_MAX in *. lia. }
    pose proof (chain_length_le_size _ _ _ Hch) as Hsize.
    rewrite length_app in Hsize. simpl in Hsize.
    assert (Hk : (pre ++ (a, v) :: post) !! length pre = Some (a, v))
      by (by rewrite list_lookup_middle).
    destruct (chain_lookup _ _ _ _ _ _ Hch Hk) as (nd & Ha & Hndv & Hseg & Hpost).
    rewrite take_app_length in Hseg.
    unfold ll_remove_find. mrun.
    rewrite (ll_scan_loop_found _ _ _ h pre _ _ _ a nd); [|done|done| | |lia].
    2:{ eapply Forall_impl; [exact Hpre|]. simpl. intros x Hx.
        by apply negb_true_iff, Z.eqb_neq. }
    2:{ rewrite Hndv, Hv. done. }
    mrun.
    destruct pre as [|[p w] pre0 _] using rev_ind.
    - simpl in *. pose proof Hch as (Hhd & _). rewrite Hhd.
      rewrite bool_decide_eq_true_2 by done. mrun.
      rewrite Hw, insert_id, Hndv by done.
      eexists _, _. split; [reflexivity|].
      split; [constructor; [reflexivity|..]|done]; simpl; try done.
      + eapply chain_behead; [|done]. by rewrite <- Hhd.
      + lia.
      + lia.
      + by apply nodes_unlocked_delete.
    - rewrite last_ptr_snoc.
      assert (Hkp : ((pre0 ++ [(p, w)]) ++ (a, v) :: post) !! length pre0 = Some (p, w)).
      { rewrite <- app_assoc. simpl. by apply list_lookup_middle. }
      assert (Hka : ((pre0 ++ [(p, w)]) ++ (a, v) :: post) !! S (length pre0) = Some (a, v)).
      { rewrite length_app in Hk. simpl in Hk.
        by replace (S (length pre0)) with (length pre0 + 1)%nat by lia. }
      destruct (chain_lookup _ _ _ _ _ _ Hch Hkp) as (np & Hp & Hnpv & _ & _).
      destruct (chain_lookup_fresh _ _ _ _ _ _ Hch Hka) as [Hfr _].
      assert (Hne : a ≠ p).
      { intros ->. apply Hfr. rewrite (take_S_r _ _ _ Hkp), fmap_app.
        apply elem_of_app. right. left. }
      assert (Hhd : Some a ≠ ll_hd l).
      { intros Heq. apply Hfr.
        destruct pre0 as [|[q u] pre1]; simpl in *.
        - destruct Hch as (Hq & _). rewrite Hq in Heq. injection Heq as ->. left.
        - destruct Hch as (Hq & _). rewrite Hq in Heq. injection Heq as ->. left. }
      rewrite bool_decide_eq_false_2 by done. mrun.
      rewrite Hw, Hndv.
      match goal with |- context [State _ ?H _] =>
        replace H with (delete a (<[p := Node (node_val np) (node_nxt nd) Unlocked]> h))
      end.
      2:{ apply map_eq; intros i.
          repeat (rewrite lookup_insert || rewrite lookup_delete);
          repeat case_decide; simplify_eq; done. }
      eexists _, _. split; [reflexivity|].
      split; [constructor; [reflexivity|..]|done]; simpl; try done.
      + replace ((pre0 ++ [(p, w)]) ++ post)
          with (delete (S (length pre0)) ((pre0 ++ [(p, w)]) ++ (a, v) :: post)).
        * by eapply chain_unlink.
        * replace (S (length pre0)) with (length (pre0 ++ [(p, w)]))
            by (rewrite length_app; simpl; lia).
          apply delete_middle.
      + rewrite !length_app in *. simpl in *. lia.
      + lia.
      + by apply nodes_unlocked_delete, nodes_unlocked_insert.
Qed.

Lemma ll_remove_find_not_found s l items comparator ref_value :
  valid_list s l items →
  Forall (λ x, comparator x.2 ref_value ≠ 0) items →
  ll_remove_find comparator ref_value s
  = Ok (-1) (State (Some (set_m (Locked l_write) l)) (heap s) (calls s)).
Proof.
  intros [Hmem Hflag Hch Hlen Hrange _ Hlock Hunl] Hall.
  destruct s as [lm h c]. simpl in *. subst lm.
  pose proof (chain_length_le_size _ _ _ Hch) as Hsize.
  unfold ll_remove_find. mrun.
  rewrite (ll_scan_loop_not_found _ _ _ h items); [done|done| |lia].
  eapply Forall_impl; [exact Hall|]. simpl. intros x Hx.
  by apply negb_true_iff, Z.eqb_neq.
Qed.

(** ** Lookup by comparator *)

Lemma ll_find_found s l pre a v post comparator ref_value :
  valid_list s l (pre ++ (a, v) :: post) →
  Forall (λ x, comparator x.2 ref_value ≠ 0) pre → comparator v ref_value = 0 →
  ll_find comparator ref_value s = Ok v s.
Proof.
  intros [Hmem Hflag Hch Hlen Hrange _ Hlock Hunl] Hpre Hv.
  destruct s as [lm h c]. simpl in *. subst lm.
  pose proof (chain_length_le_size _ _ _ Hch) as Hsize.
  rewrite length_app in Hsize. simpl in Hsize.
  assert (Hk : (pre ++ (a, v) :: post) !! length pre = Some (a, v))
    by (by rewrite list_lookup_middle).
  destruct (chain_lookup _ _ _ _ _ _ Hch Hk) as (nd & Ha & Hndv & Hseg & Hpost).
  rewrite take_app_length in Hseg.
  unfold ll_find. mrun.
  rewrite (ll_scan_loop_found _ _ _ h pre _ _ _ a nd); [|done|done| | |lia].
  2:{ eapply Forall_impl; [exact Hpre|]. simpl. intros x Hx.
      by apply negb_true_iff, Z.eqb_neq. }
  2:{ rewrite Hndv, Hv. done. }
  mrun. rewrite Hndv. do 3 f_equal. same_list.
Qed.

Lemma ll_find_not_found s l items comparator ref_value :
  valid_list s l items →
  Forall (λ x, comparator x.2 ref_value ≠ 0) items →
  ll_find comparator ref_value s = Ok NULL s.
Proof.
  intros [Hmem Hflag Hch Hlen Hrange _ Hlock Hunl] Hall.
  destruct s as [lm h c]. simpl in *. subst lm.
  pose proof (chain_length_le_size _ _ _ Hch) as Hsize.
  unfold ll_find. mrun.
  rewrite (ll_scan_loop_not_found _ _ _ h items); [|done| |lia].
  2:{ eapply Forall_impl; [exact Hall|]. simpl. intros x Hx.
      by apply negb_true_iff, Z.eqb_neq. }
  mrun. do 3 f_equal. same_list.
Qed.

(** ** Traversal *)

Global Arguments calls_on : simpl never.

Lemma calls_on_cons g a v items :
  calls_on g ((a, v) :: items) = calls_on g items ++ [(g, v)].
Proof. unfold calls_on. by rewrite fmap_cons, reverse_cons. Qed.

Lemma _ll_map_loop_spec lm h g items : ∀ fuel p c,
  nodes_unlocked h →
  chain h p items → (length items ≤ fuel)%nat →
  _ll_map_loop fuel p (Some g) (State lm h c)
  = Ok tt (State lm h (calls_on g items ++ c)).
Proof.
  induction items as [|[a v] items IH]; intros fuel p c Hunl Hch Hfuel.
  - unfold chain in Hch. simpl in Hch. subst p. by destruct fuel.
  - destruct Hch as (-> & nd & Ha & Hv & Hch).
    destruct fuel as [|fuel]; [simpl in Hfuel; lia|].
    simpl. mrun. rewrite unlock_lock_node, heap_relock by eauto.
    rewrite (IH fuel); [|done|done|simpl in Hfuel; lia].
    by rewrite calls_on_cons, Hv, <- app_assoc.
Qed.

Global Arguments _ll_map_loop : simpl never.

Lemma ll_map_spec s l items g :
  valid_list s l items →
  ll_map (Some g) s
  = Ok tt (State (list_mem s) (heap s) (calls_on g items ++ calls s)).
Proof.
  intros [Hmem Hflag Hch Hlen Hrange _ Hlock Hunl].
  destruct s as [lm h c]. simpl in *. subst lm.
  pose proof (chain_length_le_size _ _ _ Hch) as Hsize.
  unfold ll_map, _ll_map_internal. mrun.
  rewrite (_ll_map_loop_spec _ h g items); [|done|done|lia].
  mrun. do 3 f_equal. same_list.
Qed.

(** [ll_print] does nothing without a printer and is a traversal by the
    printer otherwise; the list's own lock is not touched. *)
Lemma ll_print_spec s l items :
  list_mem s = Some l → ll_valid_flag l = VALID →
  chain (heap s) (ll_hd l) items → nodes_unlocked (heap s) →
  ll_print s
  = Ok tt (State (list_mem s) (heap s)
             (match ll_val_printer l with
              | Some g => calls_on g items ++ calls s
              | None => calls s
              end)).
Proof.
  intros Hmem Hflag Hch Hunl.
  destruct s as [lm h c]. simpl in *. subst lm.
  pose proof (chain_length_le_size _ _ _ Hch) as Hsize.
  unfold ll_print, _ll_map_internal. mrun.
  destruct (ll_val_printer l) as [g|]; [|done].
  mrun. by rewrite (_ll_map_loop_spec _ h g items); [|done|done|lia].
Qed.

(** ** Clearing and deleting *)

(** The loop of [ll_clear] tears down and releases every node of the chain
    and takes one off [len] for each. *)
Lemma ll_clear_loop_spec td items : ∀ fuel l h c p,
  ll_val_teardown l = Some td →
  nodes_unlocked h →
  chain h p items →
  Z.of_nat (length items) ≤ ll_len l ≤ INT_MAX →
  (length items ≤ fuel)%nat →
  ll_clear_loop fuel p (State (Some l) h c)
  = Ok tt (State (Some (set_len (ll_len l - Z.of_nat (length items)) l))
                 (released items.*1 h) (calls_on td items ++ c)).
Proof.
  induction items as [|[a v] items IH]; intros fuel l h c p Htd Hunl Hch Hlen Hfuel.
  - unfold chain in Hch. simpl in Hch. rewrite Hch.
    destruct fuel; simpl; do 3 f_equal; rewrite Z.sub_0_r; by destruct l.
  - pose proof Hch as (-> & nd & Ha & Hv & Hrest).
    destruct fuel as [|fuel]; [simpl in Hfuel; lia|].
    simpl in Hlen.
    simpl. mrun. rewrite !delete_insert_eq.
    rewrite int_wrap_id by (unfold INT_MIN, INT_MAX in *; lia).
    rewrite (IH fuel); simpl; [|done|by apply nodes_unlocked_delete| | |simpl in Hfuel; lia].
    + rewrite calls_on_cons, Hv, <- app_assoc. simpl.
      do 3 f_equal. unfold set_len. simpl. f_equal. lia.
    + by eapply chain_behead.
    + lia.
Qed.

Global Arguments ll_clear_loop : simpl never.

Lemma ll_clear_spec s l items td :
  valid_list s l items → ll_val_teardown l = Some td →
  ll_clear s
  = Ok tt (State (Some (LL 0 None Unlocked None None INVALID))
                 (released items.*1 (heap s)) (calls_on td items ++ calls s)).
Proof.
  intros [Hmem Hflag Hch Hlen Hrange _ Hlock Hunl] Htd.
  destruct s as [lm h c]. simpl in *. subst lm.
  pose proof (chain_length_le_size _ _ _ Hch) as Hsize.
  unfold ll_clear. mrun.
  rewrite (ll_clear_loop_spec td items); [|done|done|done|simpl; lia|lia].
  mrun. rewrite Hlen, Z.sub_diag. by mrun.
Qed.

(** What [ll_delete] leaves of a valid list: [ll_clear], then the block is
    released. *)
Lemma ll_delete_spec s l items td :
  valid_list s l items → ll_val_teardown l = Some td →
  ll_delete s
  = Ok tt (State None (released items.*1 (heap s)) (calls_on td items ++ calls s)).
Proof.
  intros Hvalid Htd. unfold ll_delete.
  pose proof (ll_clear_spec _ _ _ _ Hvalid Htd) as Hclear.
  destruct Hvalid as [Hmem Hflag _ _ _ _ _ _].
  destruct s as [lm h c]. simpl in *. subst lm.
  unfold mbind, M_bind, list_get. simpl. rewrite Hflag. simpl.
  by rewrite Hclear.
Qed.

(** ** The list once it has been invalidated *)

(** [ll_clear] turns a valid list into an invalid one. *)
Lemma ll_clear_invalidates s l items td :
  valid_list s l items → ll_val_teardown l = Some td →
  ∃ s', ll_clear s = Ok tt s' ∧
        invalid_list s' (LL 0 None Unlocked None None INVALID).
Proof.
  intros Hvalid Htd. eexists. split; [by eapply ll_clear_spec|]. by constructor.
Qed.

Section invalid.
Context (s : state) (l : ll_t) (Hinv : invalid_list s l).

Ltac start :=
  destruct Hinv as [Hmem Hflag Hlock];
  destruct s as [lm h c]; simpl in *; subst lm.
Ltac stop := mrun; do 3 f_equal; same_list.

Lemma ll_select_n_min_1_invalid node n lt :
  1 ≤ n → ll_select_n_min_1 node n lt s = Ok (-1, node) s.
Proof using Hinv.
  intros Hn. start. unfold ll_select_n_min_1.
  destruct (Z.ltb_spec n 0); [lia|]. destruct (Z.eqb_spec n 0); [lia|]. stop.
Qed.

Lemma ll_length_invalid : ll_length s = Ok (-1) s.
Proof using Hinv. start. unfold ll_length. stop. Qed.

Lemma ll_remove_n_invalid n : ll_remove_n n s = Ok (-1) s.
Proof using Hinv.
  unfold ll_remove_n. destruct (Z.eqb_spec n 0) as [->|Hn0].
  - start. stop.
  - destruct (Z.ltb_spec n 0).
    + unfold ll_select_n_min_1. destruct (Z.ltb_spec n 0); [|lia]. by mred.
    + unfold mbind, M_bind. rewrite ll_select_n_min_1_invalid by lia. done.
Qed.

Lemma ll_remove_first_invalid : ll_remove_first s = Ok (-1) s.
Proof using Hinv. apply ll_remove_n_invalid. Qed.

Lemma ll_pop_first_invalid : ll_pop_first s = Ok NULL s.
Proof using Hinv. start. unfold ll_pop_first. stop. Qed.

Lemma ll_remove_search_invalid cond : ll_remove_search cond s = Ok (-1) s.
Proof using Hinv. start. unfold ll_remove_search. stop. Qed.

Lemma ll_remove_find_invalid comparator ref_value :
  ll_remove_find comparator ref_value s = Ok (-1) s.
Proof using Hinv. start. unfold ll_remove_find. stop. Qed.

Lemma ll_find_invalid comparator ref_value :
  ll_find comparator ref_value s = Ok NULL s.
Proof using Hinv. start. unfold ll_find. stop. Qed.

Lemma ll_map_invalid f : ll_map f s = Ok tt s.
Proof using Hinv. start. unfold ll_map. stop. Qed.

Lemma ll_print_invalid : ll_print s = Ok tt s.
Proof using Hinv. start. unfold ll_print. by mrun. Qed.

Lemma ll_clear_invalid : ll_clear s = Ok tt s.
Proof using Hinv. start. unfold ll_clear. stop. Qed.

Lemma ll_delete_invalid :
  ll_delete s = Ok tt (State None (heap s) (calls s)).
Proof using Hinv. start. unfold ll_delete. by mrun. Qed.

(** Any index but -1 gets [NULL] from [ll_get_n]. *)
Lemma ll_get_n_invalid n :
  INT_MIN ≤ n ≤ INT_MAX → n ≠ -1 → ll_get_n n s = Ok NULL s.
Proof using Hinv.
  intros Hn Hn1. destruct (Z.ltb_spec n (-1)).
  - apply ll_get_n_negative. lia.
  - unfold ll_get_n. mred.
    destruct (decide (n = INT_MAX)) as [->|Hmax]; [done|].
    rewrite int_wrap_id by (unfold INT_MIN, INT_MAX in *; lia).
    rewrite ll_select_n_min_1_invalid by lia. done.
Qed.

Lemma ll_get_first_invalid : ll_get_first s = Ok NULL s.
Proof using Hinv. by apply ll_get_n_invalid. Qed.

(** [ll_insert_n] has allocated its node before it looks at the list. At
    index 0 the node is not released when the list turns out invalid; it
    stays in the heap, unreachable. *)
Lemma ll_insert_n_invalid v n :
  ll_insert_n v n s
  = Ok (-1) (State (list_mem s)
               (if decide (n = 0)
                then <[fresh (dom (heap s)) := Node v None Unlocked]> (heap s)
                else heap s)
               (calls s)).
Proof using Hinv.
  unfold ll_insert_n.
  assert (Hb : heap s !! fresh (dom (heap s)) = None)
    by apply not_elem_of_dom, is_fresh.
  destruct (Z.eqb_spec n 0) as [->|Hn0].
  - start. mrun. do 3 f_equal. same_list.
  - rewrite decide_False by done. destruct (Z.ltb_spec n 0).
    + start. mred. unfold ll_select_n_min_1.
      destruct (Z.ltb_spec n 0); [|lia]. destruct (Z.eqb_spec n 0); [lia|].
      mrun. by rewrite delete_insert_id.
    + start. mred. unfold ll_select_n_min_1.
      destruct (Z.ltb_spec n 0); [lia|]. destruct (Z.eqb_spec n 0); [lia|].
      mrun. rewrite delete_insert_id by done. do 3 f_equal. same_list.
Qed.

Lemma ll_insert_first_invalid v :
  ll_insert_first v s
  = Ok (-1) (State (list_mem s)
               (<[fresh (dom (heap s)) := Node v None Unlocked]> (heap s))
               (calls s)).
Proof using Hinv. unfold ll_insert_first. by rewrite ll_insert_n_invalid. Qed.
End invalid.

(** ** Deciding validity of a given world *)

Lemma chainb_sound h items : ∀ p, chainb h p items = true → chain h p items.
Proof.
  induction items as [|[a v] items IH]; intros p; simpl.
  - intros H. by apply bool_decide_eq_true in H.
  - intros H. apply andb_true_iff in H as [Hp H].
    apply bool_decide_eq_true in Hp.
    destruct (h !! a) as [nd|] eqn:Ha; [|done].
    apply andb_true_iff in H as [Hv H]. apply bool_decide_eq_true in Hv.
    split; [done|]. exists nd. split; [done|]. split; [done|]. by apply IH.
Qed.

Lemma valid_listb_sound s l items :
  valid_listb s l items = true → valid_list s l items.
Proof.
  unfold valid_listb, nodes_unlockedb. intros H.
  repeat (apply andb_true_iff in H as [H ?]).
  repeat match goal with
         | H : bool_decide _ = true |- _ => apply bool_decide_eq_true in H
         end.
  constructor; try done. by apply chainb_sound.
Qed.

(** ** Worlds used as examples *)

Lemma three_world_valid : valid_list three_world three_list three_items.
Proof. apply valid_listb_sound. vm_compute. reflexivity. Qed.

Example ll_new_empty_world :
  ll_new (Some 1%nat) None (State None ∅ []) = Ok tt empty_world.
Proof. reflexivity. Qed.

(** ** The cases of a removal *)

(** Where a scan stops: nowhere, or on the first payload that fails the
    test. *)
Lemma scan_split (go_on : Z → bool) (items : list (positive * Z)) :
  Forall (λ x, go_on x.2 = true) items ∨
  ∃ pre a v post, items = pre ++ (a, v) :: post ∧
                  Forall (λ x, go_on x.2 = true) pre ∧ go_on v = false.
Proof.
  induction items as [|[a v] items IH]; [by left|].
  destruct (go_on v) eqn:Hv.
  - destruct IH as [IH|(pre & b & w & post & -> & Hpre & Hw)].
    + left. by constructor.
    + right. exists ((a, v) :: pre), b, w, post. split; [done|].
      split; [by constructor|done].
  - right. exists [], a, v, items. done.
Qed.

Lemma valid_list_len_nonneg s l items : valid_list s l items → 0 ≤ ll_len l.
Proof. intros [_ _ _ Hlen _ _ _ _]. lia. Qed.

Lemma removed_not_sentinel s l items k v r s' :
  valid_list s l items → removed s l items k v r s' → r ≠ -1.
Proof.
  intros Hvalid (a & td & l' & Hk & _ & -> & _).
  pose proof Hvalid as [_ _ _ Hlen _ _ _ _].
  apply lookup_lt_Some in Hk. lia.
Qed.

Lemma ll_remove_n_cases s l items n :
  valid_list s l items →
  ((n < 0 ∨ ll_len l < n) ∧ ll_remove_n n s = Ok (-1) s) ∨
  (n = ll_len l ∧ ll_remove_n n s = Fault NullDeref) ∨
  (0 ≤ n < ll_len l ∧
   ∃ v s', ll_remove_n n s = Ok (ll_len l - 1) s' ∧
           removed s l items (Z.to_nat n) v (ll_len l - 1) s').
Proof.
  intros Hvalid. pose proof Hvalid as [_ _ _ Hlen _ [td Htd] _ _].
  destruct (Z.ltb_spec n 0); [left; split; [lia|]|].
  { apply (ll_remove_n_out_of_range _ _ _ _ Hvalid). lia. }
  destruct (Z.ltb_spec (ll_len l) n); [left; split; [lia|]|].
  { apply (ll_remove_n_out_of_range _ _ _ _ Hvalid). lia. }
  destruct (decide (n = ll_len l)) as [Heq|Hne]; [right; left; split; [done|]|].
  { by apply (ll_remove_n_at_length _ _ _ _ Hvalid). }
  right. right. split; [lia|].
  assert (Hk : (Z.to_nat n < length items)%nat) by lia.
  apply lookup_lt_is_Some_2 in Hk as [[a v] Hk].
  assert (Hn0 : 0 ≤ n) by lia.
  destruct (ll_remove_n_spec _ _ _ _ _ _ _ Hvalid Hn0 Hk Htd)
    as (s' & l' & Hrun & Hvalid' & Hcalls & _).
  exists v, s'. split; [done|]. exists a, td, l'.
  split_and!; try done.
  pose proof Hvalid' as [_ _ _ Hlen' _ _ _ _].
  rewrite Hlen', length_delete by eauto. lia.
Qed.

Lemma removed_world_removed s l pre a v post td s' l' :
  valid_list s l (pre ++ (a, v) :: post) →
  ll_val_teardown l = Some td →
  removed_world s l pre post v td s' l' →
  removed s l (pre ++ (a, v) :: post) (length pre) v (ll_len l - 1) s'.
Proof.
  intros [_ _ _ Hlen _ _ _ _] Htd (Hvalid' & Hcalls & _).
  exists a, td, l'. rewrite delete_middle.
  split_and!; try done; [by apply list_lookup_middle|].
  pose proof Hvalid' as [_ _ _ Hlen' _ _ _ _].
  rewrite Hlen', Hlen, !length_app. simpl. lia.
Qed.

Lemma ll_remove_search_cases s l items cond :
  valid_list s l items →
  (Forall (λ x, cond x.2 = 0) items ∧
   ll_remove_search cond s
   = Ok (-1) (State (Some (set_m (Locked l_write) l)) (heap s) (calls s))) ∨
  (∃ pre a v post s',
     items = pre ++ (a, v) :: post ∧
     Forall (λ x, cond x.2 = 0) pre ∧ cond v ≠ 0 ∧
     ll_remove_search cond s = Ok (ll_len l - 1) s' ∧
     removed s l items (length pre) v (ll_len l - 1) s').
Proof.
  intros Hvalid. pose proof Hvalid as [_ _ _ _ _ [td Htd] _ _].
  destruct (scan_split (λ v, cond v =? 0) items)
    as [Hall|(pre & a & v & post & -> & Hpre & Hv)].
  - assert (Hall' : Forall (λ x, cond x.2 = 0) items).
    { eapply Forall_impl; [exact Hall|]. simpl. intros x Hx. by apply Z.eqb_eq. }
    left. split; [done|]. by eapply ll_remove_search_not_found.
  - assert (Hpre' : Forall (λ x, cond x.2 = 0) pre).
    { eapply Forall_impl; [exact Hpre|]. simpl. intros x Hx. by apply Z.eqb_eq. }
    apply Z.eqb_neq in Hv.
    destruct (ll_remove_search_found _ _ _ _ _ _ _ _ Hvalid Htd Hpre' Hv)
      as (s' & l' & Hrun & Hworld).
    right. exists pre, a, v, post, s'. split_and!; try done.
    by eapply removed_world_removed.
Qed.

Lemma ll_remove_find_cases s l items comparator ref_value :
  valid_list s l items →
  (Forall (λ x, comparator x.2 ref_value ≠ 0) items ∧
   ll_remove_find comparator ref_value s
   = Ok (-1) (State (Some (set_m (Locked l_write) l)) (heap s) (calls s))) ∨
  (∃ pre a v post s',
     items = pre ++ (a, v) :: post ∧
     Forall (λ x, comparator x.2 ref_value ≠ 0) pre ∧ comparator v ref_value = 0 ∧
     ll_remove_find comparator ref_value s = Ok (ll_len l - 1) s' ∧
     removed s l items (length pre) v (ll_len l - 1) s').
Proof.
  intros Hvalid. pose proof Hvalid as [_ _ _ _ _ [td Htd] _ _].
  destruct (scan_split (λ v, negb (comparator v ref_value =? 0)) items)
    as [Hall|(pre & a & v & post & -> & Hpre & Hv)].
  - assert (Hall' : Forall (λ x, comparator x.2 ref_value ≠ 0) items).
    { eapply Forall_impl; [exact Hall|]. simpl. intros x Hx.
      by apply negb_true_iff, Z.eqb_neq in Hx. }
    left. split; [done|]. by eapply ll_remove_find_not_found.
  - assert (Hpre' : Forall (λ x, comparator x.2 ref_value ≠ 0) pre).
    { eapply Forall_impl; [exact Hpre|]. simpl. intros x Hx.
      by apply negb_true_iff, Z.eqb_neq in Hx. }
    apply negb_false_iff, Z.eqb_eq in Hv.
    destruct (ll_remove_find_found _ _ _ _ _ _ _ _ _ Hvalid Htd Hpre' Hv)
      as (s' & l' & Hrun & Hworld).
    right. exists pre, a, v, post, s'. split_and!; try done.
    by eapply removed_world_removed.
Qed.

(** ** Worlds up to the list's lock *)

Lemma unlock_list_valid s l items : valid_list s l items → unlock_list s = s.
Proof.
  intros [Hmem _ _ _ _ _ Hlock _]. destruct s as [lm h c]. simpl in *. subst lm.
  unfold unlock_list. simpl. by rewrite set_m_id.
Qed.

Lemma ll_length_unlock s : ll_length (unlock_list s) = ll_length s.
Proof. by destruct s as [[l|] h c]. Qed.

Lemma ll_pop_first_unlock s : ll_pop_first (unlock_list s) = ll_pop_first s.
Proof. by destruct s as [[l|] h c]. Qed.

Lemma ll_remove_search_unlock s cond :
  ll_remove_search cond (unlock_list s) = ll_remove_search cond s.
Proof. by destruct s as [[l|] h c]. Qed.

Lemma ll_remove_find_unlock s comparator ref_value :
  ll_remove_find comparator ref_value (unlock_list s)
  = ll_remove_find comparator ref_value s.
Proof. by destruct s as [[l|] h c]. Qed.

Lemma ll_find_unlock s comparator ref_value :
  ll_find comparator ref_value (unlock_list s) = ll_find comparator ref_value s.
Proof. by destruct s as [[l|] h c]. Qed.

Lemma ll_map_unlock s f : ll_map f (unlock_list s) = ll_map f s.
Proof. by destruct s as [[l|] h c]. Qed.

Lemma ll_clear_unlock s : ll_clear (unlock_list s) = ll_clear s.
Proof. by destruct s as [[l|] h c]. Qed.

Lemma ll_delete_unlock s : ll_delete (unlock_list s) = ll_delete s.
Proof.
  destruct s as [[l|] h c]; [|done]. unfold ll_delete, mbind, M_bind. simpl.
  destruct (ll_valid_flag l); simpl; [done|].
  by rewrite <- (ll_clear_unlock (State (Some l) h c)).
Qed.

Lemma ll_select_n_min_1_unlock s node n lt :
  1 ≤ n →
  ll_select_n_min_1 node n lt (unlock_list s) = ll_select_n_min_1 node n lt s.
Proof.
  intros Hn. unfold ll_select_n_min_1.
  destruct (Z.ltb_spec n 0); [lia|]. destruct (Z.eqb_spec n 0); [lia|].
  by destruct s as [[l|] h c].
Qed.

Lemma ll_insert_n_unlock s v n :
  0 ≤ n → ll_insert_n v n (unlock_list s) = ll_insert_n v n s.
Proof.
  intros Hn. unfold ll_insert_n, mbind, M_bind. simpl.
  destruct (Z.eqb_spec n 0) as [->|Hn0].
  - by destruct s as [[l|] h c].
  - destruct s as [[l|] h c]; [|done]. simpl.
    by rewrite <- (ll_select_n_min_1_unlock (State (Some l) _ c)) by lia.
Qed.

Lemma ll_remove_n_unlock s n :
  0 ≤ n → ll_remove_n n (unlock_list s) = ll_remove_n n s.
Proof.
  intros Hn. unfold ll_remove_n, mbind, M_bind.
  destruct (Z.eqb_spec n 0) as [->|Hn0].
  - by destruct s as [[l|] h c].
  - by rewrite <- (ll_select_n_min_1_unlock s) by lia.
Qed.

Lemma ll_get_n_unlock s n :
  0 ≤ n < INT_MAX → ll_get_n n (unlock_list s) = ll_get_n n s.
Proof.
  intros Hn. unfold ll_get_n, mbind, M_bind.
  rewrite int_wrap_id by (unfold INT_MIN, INT_MAX in *; lia).
  by rewrite <- (ll_select_n_min_1_unlock s) by lia.
Qed.

(** ** One call from a coherent world *)

Lemma coherent_valid s l items : valid_list s l items → coherent s.
Proof.
  intros Hvalid. pose proof Hvalid as [Hmem Hflag _ _ _ _ Hlock _].
  unfold coherent. rewrite Hmem, Hflag. exists items.
  by rewrite (unlock_list_valid _ _ _ Hvalid), set_m_id.
Qed.

Lemma valid_list_calls lm h c c' l items :
  valid_list (State lm h c) l items → valid_list (State lm h c') l items.
Proof. intros []. by constructor. Qed.

(** A valid list whose lock has been left in state [k]. *)
Lemma coherent_relock s l items k :
  valid_list s l items →
  coherent (State (Some (set_m k l)) (heap s) (calls s)).
Proof.
  intros Hvalid. pose proof Hvalid as [Hmem Hflag _ _ _ _ Hlock _].
  unfold coherent. simpl. rewrite Hflag. exists items.
  destruct s as [lm h c]. simpl in *. subst lm.
  unfold unlock_list. simpl.
  replace (set_m Unlocked (set_m k l)) with l; [done|].
  destruct l; simpl in *; by subst.
Qed.

Lemma coherent_calls s l items c' :
  valid_list s l items → coherent (State (list_mem s) (heap s) c').
Proof.
  intros Hvalid. eapply coherent_valid.
  destruct s as [lm h c]. simpl. by eapply valid_list_calls.
Qed.

Lemma coherent_inv s : coherent s → ll_inv s.
Proof.
  unfold coherent, ll_inv. intros Hco l Hmem Hflag.
  rewrite Hmem, Hflag in Hco. destruct Hco as [items [_ _ Hch Hlen _ _ _ _]].
  exists items. destruct s as [lm h c]. simpl in *.
  split_and!; [done|by eapply chain_NoDup|done].
Qed.

(** Run a call that returns a value, for its effect. *)
Lemma ignore_ok {A} (m : M A) s r s' : m s = Ok r s' → ignore m s = Ok tt s'.
Proof. intros H. unfold ignore, mbind, M_bind. by rewrite H. Qed.

Lemma exec_cleared s c :
  list_mem s = Some (LL 0 None Unlocked None None INVALID) →
  call_pre c (LL 0 None Unlocked None None INVALID) →
  ∃ s', exec c s = Ok tt s' ∧ coherent s'.
Proof.
  intros Hmem Hpre.
  assert (Hinv : invalid_list s (LL 0 None Unlocked None None INVALID))
    by (by constructor).
  assert (Hco : coherent s) by (unfold coherent; by rewrite Hmem).
  assert (Hleak : ∀ v, coherent
            (State (list_mem s)
               (<[fresh (dom (heap s)) := Node v None Unlocked]> (heap s)) (calls s))).
  { intros v. unfold coherent. simpl. by rewrite Hmem. }
  destruct c; simpl in Hpre; simpl.
  - eexists. split; [by eapply ignore_ok, ll_length_invalid|done].
  - assert (n = 0) as -> by lia.
    eexists. split; [by eapply ignore_ok, ll_insert_first_invalid|done].
  - eexists. split; [by eapply ignore_ok, ll_insert_first_invalid|done].
  - pose proof (ll_insert_first_invalid s _ Hinv val) as Hrun.
    unfold ll_insert_first in Hrun.
    eexists. split; [|apply (Hleak val)].
    unfold ignore, ll_insert_last, mbind, M_bind, list_get.
    destruct (list_mem s); [|done]. injection Hmem as ->. simpl.
    by rewrite Hrun.
  - lia.
  - lia.
  - eexists. split; [by eapply ignore_ok, ll_pop_first_invalid|done].
  - eexists. split; [by eapply ignore_ok, ll_remove_search_invalid|done].
  - lia.
  - eexists. split; [by eapply ignore_ok, ll_get_first_invalid|done].
  - eexists. split; [by eapply ll_map_invalid|done].
  - eexists. split; [by eapply ll_print_invalid|done].
  - eexists. split; [by eapply ignore_ok, ll_find_invalid|done].
  - eexists. split; [by eapply ignore_ok, ll_remove_find_invalid|done].
  - eexists. split; [by eapply ll_clear_invalid|done].
  - eexists. split; [by eapply ll_delete_invalid|done].
Qed.

Lemma exec_valid s l items c :
  list_mem s = Some l →
  valid_list (unlock_list s) (set_m Unlocked l) items →
  call_pre c l →
  ∃ s', exec c s = Ok tt s' ∧ coherent s'.
Proof.
  intros Hmem Hvalid Hpre.
  set (s0 := unlock_list s) in *. set (l0 := set_m Unlocked l) in *.
  assert (Hlen0 : ll_len l0 = ll_len l) by done.
  pose proof Hvalid as [Hmem0 Hflag0 Hch0 Hlen Hrange [td Htd] Hlock0 Hunl0].
  pose proof (coherent_valid _ _ _ Hvalid) as Hco0.
  destruct c; simpl in Hpre; simpl.
  - (* ll_length *)
    eexists. split; [|exact Hco0].
    eapply ignore_ok. rewrite <- ll_length_unlock. by eapply ll_length_spec.
  - (* ll_insert_n *)
    destruct Hpre as [Hn Hmax].
    destruct (ll_insert_n_spec s0 l0 items val n Hvalid Hn Hmax)
      as (s' & l' & Hrun & Hvalid' & _).
    exists s'. split; [|by eapply coherent_valid].
    eapply ignore_ok. rewrite <- ll_insert_n_unlock by lia. exact Hrun.
  - (* ll_insert_first *)
    destruct (ll_insert_n_spec s0 l0 items val 0 Hvalid ltac:(lia) Hpre)
      as (s' & l' & Hrun & Hvalid' & _).
    exists s'. split; [|by eapply coherent_valid].
    eapply ignore_ok. unfold ll_insert_first.
    rewrite <- ll_insert_n_unlock by lia. exact Hrun.
  - (* ll_insert_last *)
    destruct (ll_insert_n_spec s0 l0 items val (ll_len l) Hvalid ltac:(lia) Hpre)
      as (s' & l' & Hrun & Hvalid' & _).
    exists s'. split; [|by eapply coherent_valid].
    unfold s0 in Hrun. rewrite ll_insert_n_unlock in Hrun by lia.
    unfold ignore, ll_insert_last, mbind, M_bind, list_get. rewrite Hmem.
    by rewrite Hrun.
  - (* ll_remove_n *)
    assert (Hk : (Z.to_nat n < length items)%nat) by lia.
    apply lookup_lt_is_Some_2 in Hk as [[a v] Hk].
    destruct (ll_remove_n_spec s0 l0 items n a v td Hvalid ltac:(lia) Hk Htd)
      as (s' & l' & Hrun & Hvalid' & _).
    exists s'. split; [|by eapply coherent_valid].
    eapply ignore_ok. rewrite <- ll_remove_n_unlock by lia. exact Hrun.
  - (* ll_remove_first *)
    assert (Hk : (Z.to_nat 0 < length items)%nat) by lia.
    apply lookup_lt_is_Some_2 in Hk as [[a v] Hk].
    destruct (ll_remove_n_spec s0 l0 items 0 a v td Hvalid ltac:(lia) Hk Htd)
      as (s' & l' & Hrun & Hvalid' & _).
    exists s'. split; [|by eapply coherent_valid].
    eapply ignore_ok. unfold ll_remove_first.
    rewrite <- ll_remove_n_unlock by lia. exact Hrun.
  - (* ll_pop_first *)
    destruct items as [|[a v] rest].
    + eexists. split; [|exact Hco0].
      eapply ignore_ok. rewrite <- ll_pop_first_unlock. by eapply ll_pop_first_empty.
    + destruct (ll_pop_first_spec s0 l0 a v rest Hvalid)
        as (s' & l' & Hrun & Hvalid' & _).
      exists s'. split; [|by eapply coherent_valid].
      eapply ignore_ok. rewrite <- ll_pop_first_unlock. exact Hrun.
  - (* ll_remove_search *)
    destruct (ll_remove_search_cases s0 l0 items cond Hvalid)
      as [[_ Hrun]|(pre & a & v & post & s' & _ & _ & _ & Hrun & Hrem)].
    + eexists. split; [|by eapply (coherent_relock s0 l0 items)].
      eapply ignore_ok. rewrite <- ll_remove_search_unlock. exact Hrun.
    + destruct Hrem as (_ & _ & l' & _ & _ & _ & Hvalid' & _).
      exists s'. split; [|by eapply coherent_valid].
      eapply ignore_ok. rewrite <- ll_remove_search_unlock. exact Hrun.
  - (* ll_get_n *)
    eexists. split; [|exact Hco0].
    eapply ignore_ok. rewrite <- ll_get_n_unlock by lia.
    eapply ll_get_n_spec; [done|lia].
  - (* ll_get_first *)
    eexists. split; [|exact Hco0].
    eapply ignore_ok. unfold ll_get_first.
    rewrite <- ll_get_n_unlock by (unfold INT_MAX; lia).
    eapply ll_get_n_spec; [done|unfold INT_MAX; lia].
  - (* ll_map *)
    destruct Hpre as [g ->].
    eexists. split; [|by eapply (coherent_calls s0 l0 items)].
    rewrite <- ll_map_unlock. by eapply ll_map_spec.
  - (* ll_print *)
    eexists. split.
    + eapply (ll_print_spec s l items); [done|done|done|done].
    + destruct s as [lm h c]. simpl in *. subst lm.
      pose proof (valid_list_calls _ _ _
        (match ll_val_printer l with
         | Some g => calls_on g items ++ c
         | None => c
         end) _ _ Hvalid) as Hvalid'.
      unfold coherent. simpl. rewrite Hflag0. by exists items.
  - (* ll_find *)
    destruct (scan_split (λ v, negb (comparator v ref_value =? 0)) items)
      as [Hall|(pre & a & v & post & -> & Hpre' & Hv)].
    + eexists. split; [|exact Hco0].
      eapply ignore_ok. rewrite <- ll_find_unlock.
      eapply ll_find_not_found; [done|].
      eapply Forall_impl; [exact Hall|]. simpl. intros x Hx.
      by apply negb_true_iff, Z.eqb_neq in Hx.
    + eexists. split; [|exact Hco0].
      eapply ignore_ok. rewrite <- ll_find_unlock.
      eapply ll_find_found; [done| |by apply negb_false_iff, Z.eqb_eq in Hv].
      eapply Forall_impl; [exact Hpre'|]. simpl. intros x Hx.
      by apply negb_true_iff, Z.eqb_neq in Hx.
  - (* ll_remove_find *)
    destruct (ll_remove_find_cases s0 l0 items comparator ref_value Hvalid)
      as [[_ Hrun]|(pre & a & v & post & s' & _ & _ & _ & Hrun & Hrem)].
    + eexists. split; [|by eapply (coherent_relock s0 l0 items)].
      eapply ignore_ok. rewrite <- ll_remove_find_unlock. exact Hrun.
    + destruct Hrem as (_ & _ & l' & _ & _ & _ & Hvalid' & _).
      exists s'. split; [|by eapply coherent_valid].
      eapply ignore_ok. rewrite <- ll_remove_find_unlock. exact Hrun.
  - (* ll_clear *)
    eexists. split.
    + rewrite <- ll_clear_unlock. by eapply ll_clear_spec.
    + done.
  - (* ll_delete *)
    eexists. split.
    + rewrite <- ll_delete_unlock. by eapply ll_delete_spec.
    + done.
Qed.

(** A call within its precondition, from a coherent world, returns and
    leaves a coherent world. *)
Lemma exec_coherent s l c :
  coherent s → list_mem s = Some l → call_pre c l →
  ∃ s', exec c s = Ok tt s' ∧ coherent s'.
Proof.
  intros Hco Hmem Hpre. unfold coherent in Hco. rewrite Hmem in Hco.
  destruct (ll_valid_flag l) eqn:Hflag.
  - subst l. by eapply exec_cleared.
  - destruct Hco as [items Hvalid]. by eapply exec_valid.
Qed.

(** ** Calls outside their precondition *)

Lemma ll_insert_n_negative s v n : n < 0 → ll_insert_n v n s = Ok (-1) s.
Proof.
  intros Hn. unfold ll_insert_n, ll_select_n_min_1.
  assert (Hb : heap s !! fresh (dom (heap s)) = None)
    by apply not_elem_of_dom, is_fresh.
  destruct (Z.eqb_spec n 0); [lia|]. destruct (Z.ltb_spec n 0); [|lia].
  destruct s as [lm h c]. simpl in *. mrun. by rewrite delete_insert_id.
Qed.

Lemma ll_remove_n_negative s n : n < 0 → ll_remove_n n s = Ok (-1) s.
Proof.
  intros Hn. unfold ll_remove_n, ll_select_n_min_1.
  destruct (Z.eqb_spec n 0); [lia|]. by destruct (Z.ltb_spec n 0); [|lia].
Qed.

Lemma ll_get_n_at_minus_1 s : ll_get_n (-1) s = Fault NullDeref.
Proof. reflexivity. Qed.

Lemma ll_get_n_INT_MAX s : ll_get_n INT_MAX s = Ok NULL s.
Proof. reflexivity. Qed.

(** [ll_map] with a null function pointer calls it on the first node. *)
Lemma ll_map_null s l items :
  valid_list s l items →
  ll_map None s = match items with [] => Ok tt s | _ => Fault NullCall end.
Proof.
  intros [Hmem Hflag Hch Hlen Hrange _ Hlock Hunl].
  destruct s as [lm h c]. simpl in *. subst lm.
  unfold ll_map, _ll_map_internal. destruct items as [|[a v] rest].
  - unfold chain in Hch. simpl in Hch. mrun.
    unfold _ll_map_loop. mrun. do 3 f_equal. same_list.
  - destruct Hch as (Hhd & nd & Ha & _). mrun.
    unfold _ll_map_loop. by mrun.
Qed.

Lemma ignore_inv {A} (m : M A) s s' :
  ignore m s = Ok tt s' → ∃ r, m s = Ok r s'.
Proof.
  unfold ignore, mbind, M_bind. destruct (m s) as [r s1|e]; [|done].
  intros [= <-]. by exists r.
Qed.

(** A call with arguments of its types, from a coherent world: if it
    returns, the world it leaves is coherent. *)
Lemma exec_typed_coherent s l c s' :
  coherent s → list_mem s = Some l → call_typed c l →
  exec c s = Ok tt s' → coherent s'.
Proof.
  intros Hco Hmem Htyped Hrun.
  assert (Hpre_case : call_pre c l → coherent s').
  { intros Hpre. destruct (exec_coherent _ _ _ Hco Hmem Hpre) as (s1 & Hrun1 & Hco1).
    rewrite Hrun1 in Hrun. by injection Hrun as <-. }
  pose proof Hco as Hco'. unfold coherent in Hco'. rewrite Hmem in Hco'.
  destruct (ll_valid_flag l) eqn:Hflag.
  - (* the list has been cleared *)
    subst l.
    assert (Hinv : invalid_list s (LL 0 None Unlocked None None INVALID))
      by (by constructor).
    destruct c; simpl in Htyped; try (apply Hpre_case; exact I);
      try (apply Hpre_case; exact Htyped); simpl in Hrun.
    + apply ignore_inv in Hrun as [r Hrun].
      rewrite (ll_insert_n_invalid _ _ Hinv) in Hrun. injection Hrun as _ <-.
      unfold coherent. simpl. by rewrite Hmem.
    + apply ignore_inv in Hrun as [r Hrun].
      rewrite (ll_remove_n_invalid _ _ Hinv) in Hrun. by injection Hrun as _ <-.
    + apply ignore_inv in Hrun as [r Hrun].
      rewrite (ll_remove_first_invalid _ _ Hinv) in Hrun. by injection Hrun as _ <-.
    + apply ignore_inv in Hrun as [r Hrun].
      destruct (decide (n = -1)) as [->|Hn1];
        [by rewrite ll_get_n_at_minus_1 in Hrun|].
      rewrite (ll_get_n_invalid _ _ Hinv) in Hrun by done. by injection Hrun as _ <-.
    + rewrite (ll_map_invalid _ _ Hinv) in Hrun. by injection Hrun as <-.
  - (* the list is valid *)
    destruct Hco' as [items Hvalid].
    pose proof Hvalid as [_ _ _ Hlen Hrange _ _ _]. simpl in Hlen, Hrange.
    pose proof (coherent_valid _ _ _ Hvalid) as Hco0.
    destruct c; simpl in Htyped; try (apply Hpre_case; exact I);
      try (apply Hpre_case; exact Htyped); simpl in Hrun.
    + destruct Htyped as [Hn Hmax].
      destruct (decide (0 ≤ n ≤ ll_len l)) as [Hin|Hout]; [by apply Hpre_case|].
      apply ignore_inv in Hrun as [r Hrun].
      destruct (Z.ltb_spec n 0).
      * rewrite ll_insert_n_negative in Hrun by done. by injection Hrun as _ <-.
      * rewrite <- ll_insert_n_unlock in Hrun by done.
        rewrite (ll_insert_n_out_of_range _ _ _ _ _ Hvalid) in Hrun by (simpl; lia).
        by injection Hrun as _ <-.
    + destruct (decide (0 ≤ n < ll_len l)) as [Hin|Hout]; [by apply Hpre_case|].
      apply ignore_inv in Hrun as [r Hrun].
      destruct (Z.ltb_spec n 0).
      * rewrite ll_remove_n_negative in Hrun by done. by injection Hrun as _ <-.
      * rewrite <- ll_remove_n_unlock in Hrun by done.
        destruct (decide (n = ll_len l)) as [->|Hne].
        -- by rewrite (ll_remove_n_at_length _ _ _ _ Hvalid) in Hrun.
        -- rewrite (ll_remove_n_out_of_range _ _ _ _ Hvalid) in Hrun by (simpl; lia).
           by injection Hrun as _ <-.
    + destruct (decide (0 < ll_len l)) as [Hin|Hout]; [by apply Hpre_case|].
      apply ignore_inv in Hrun as [r Hrun]. unfold ll_remove_first in Hrun.
      rewrite <- ll_remove_n_unlock in Hrun by done.
      by rewrite (ll_remove_n_at_length _ _ _ _ Hvalid) in Hrun by (simpl; lia).
    + destruct (decide (0 ≤ n < ll_len l)) as [Hin|Hout]; [by apply Hpre_case|].
      apply ignore_inv in Hrun as [r Hrun].
      destruct (decide (n = -1)) as [->|Hn1];
        [by rewrite ll_get_n_at_minus_1 in Hrun|].
      destruct (Z.ltb_spec n 0).
      * rewrite ll_get_n_negative in Hrun by lia. by injection Hrun as _ <-.
      * destruct (decide (n = INT_MAX)) as [->|Hmax].
        -- rewrite ll_get_n_INT_MAX in Hrun. by injection Hrun as _ <-.
        -- rewrite <- ll_get_n_unlock in Hrun by lia.
           rewrite (ll_get_n_spec _ _ _ _ Hvalid) in Hrun by lia.
           by injection Hrun as _ <-.
    + destruct f as [g|]; [apply Hpre_case; simpl; eauto|].
      rewrite <- ll_map_unlock, (ll_map_null _ _ _ Hvalid) in Hrun.
      destruct items; [|done]. by injection Hrun as <-.
Qed.

Lemma ll_new_coherent td junk s0 s :
  nodes_unlocked (heap s0) → ll_new (Some td) junk s0 = Ok tt s → coherent s.
Proof.
  intros Hunl [= <-]. eapply (coherent_valid _ _ []).
  constructor; simpl; done.
Qed.

Lemma reachable_coherent s : reachable s → coherent s.
Proof.
  induction 1 as [td junk s0 s Hunl Hnew|s l c s' _ IH Hmem Htyped Hrun].
  - by eapply ll_new_coherent.
  - by eapply exec_typed_coherent.
Qed.

(** ** The self-test of [ll.c] *)

(** [main] passes its thirteen tests; the removals return the lengths its
    comments give, 6, 5, 4, then -1 for index 5 of four nodes; the list it
    prints is [b], [g]; and after [ll_clear] its calls return -1. What is
    left is the two nodes that [ll_insert_last] allocated for the cleared
    list, and the log of the teardowns and of the printing. *)
Example main_self_test :
  main_calls (State None ∅ [])
  = Ok ([3; 1; 1; 3; 6; 6; 1; 2; 3; 4; 5; 6; 7],
        [6; 5; 4; -1; 3; 4; 5; 4; 3; 6; NULL; 2; -1; -1; -1])
       (State None
          (<[1%positive := Node 8 None Unlocked]>
             (<[2%positive := Node 9 None Unlocked]> ∅))
          [(1%nat, 7); (1%nat, 2); (2%nat, 7); (2%nat, 2); (1%nat, 6);
           (1%nat, 9); (1%nat, 8); (1%nat, 4); (1%nat, 5); (1%nat, 3);
           (1%nat, 1)]).
Proof. vm_compute. reflexivity. Qed.

(** ** What the properties rest on *)

Lemma removal_cases s l items op :
  valid_list s l items → removal op →
  (∃ s' l', op s = Ok (-1) s' ∧ list_mem s' = Some l' ∧ ll_len l' = ll_len l ∧
            calls s' = calls s ∧ heap s' = heap s) ∨
  op s = Fault NullDeref ∨
  (∃ k v s', op s = Ok (ll_len l - 1) s' ∧ removed s l items k v (ll_len l - 1) s').
Proof.
  intros Hvalid Hop. pose proof Hvalid as [Hmem _ _ _ _ _ _ _].
  destruct Hop as [n|cond|comparator ref_value].
  - destruct (ll_remove_n_cases _ _ _ n Hvalid)
      as [[_ Hrun]|[[_ Hrun]|[_ (v & s' & Hrun & Hrem)]]]; eauto 10.
  - destruct (ll_remove_search_cases _ _ _ cond Hvalid)
      as [[_ Hrun]|(pre & a & v & post & s' & _ & _ & _ & Hrun & Hrem)]; eauto 10.
  - destruct (ll_remove_find_cases _ _ _ comparator ref_value Hvalid)
      as [[_ Hrun]|(pre & a & v & post & s' & _ & _ & _ & Hrun & Hrem)]; eauto 10.
Qed.

Lemma nodes_unlocked_empty : nodes_unlocked ∅.
Proof. intros a nd Ha. by rewrite lookup_empty in Ha. Qed.

Lemma two_world_reachable : reachable two_world.
Proof.
  apply (reach_call (one_world (Locked l_write)) (one_list (Locked l_write))
           (c_insert_last 6)).
  - apply (reach_call (one_world Unlocked) (one_list Unlocked)
             (c_remove_search (λ _, 0))).
    + apply (reach_call empty_world empty_list (c_insert_first 5)).
      * apply (reach_new 1%nat None (State None ∅ [])); [|reflexivity].
        exact nodes_unlocked_empty.
      * reflexivity.
      * vm_compute. reflexivity.
      * vm_compute. reflexivity.
    + reflexivity.
    + exact I.
    + vm_compute. reflexivity.
  - reflexivity.
  - vm_compute. reflexivity.
  - vm_compute. reflexivity.
Qed.

(** What the public functions other than [ll_delete] do on a list that has
    been invalidated, [ll_get_n] at -1 left aside: each returns its failure
    value, calls nothing, and leaves the list block and every node as they
    were. [ll_insert_n] at index 0 and its two wrappers leave behind, out of
    reach, the node they allocated. *)
Lemma invalid_list_sentinels s l :
  invalid_list s l →
  ll_length s = Ok (-1) s ∧
  (∀ v n, n ≠ 0 → ll_insert_n v n s = Ok (-1) s) ∧
  (∀ v, ∃ s', ll_insert_n v 0 s = Ok (-1) s' ∧
              list_mem s' = list_mem s ∧ calls s' = calls s ∧
              heap s ⊆ heap s' ∧ invalid_list s' l) ∧
  (∀ n, ll_remove_n n s = Ok (-1) s) ∧
  ll_remove_first s = Ok (-1) s ∧
  ll_pop_first s = Ok NULL s ∧
  (∀ cond, ll_remove_search cond s = Ok (-1) s) ∧
  (∀ comparator ref_value, ll_remove_find comparator ref_value s = Ok (-1) s) ∧
  (∀ n, INT_MIN ≤ n ≤ INT_MAX → n ≠ -1 → ll_get_n n s = Ok NULL s) ∧
  ll_get_first s = Ok NULL s ∧
  (∀ comparator ref_value, ll_find comparator ref_value s = Ok NULL s) ∧
  (∀ f, ll_map f s = Ok tt s) ∧
  ll_print s = Ok tt s ∧
  ll_clear s = Ok tt s.
Proof.
  intros Hinv. split_and!.
  - by eapply ll_length_invalid.
  - intros v n Hn. rewrite (ll_insert_n_invalid _ _ Hinv), decide_False by done.
    by destruct s.
  - intros v. eexists. split; [by eapply ll_insert_n_invalid|].
    rewrite decide_True by done. simpl. split_and!; [done|done| |].
    + apply insert_subseteq, not_elem_of_dom, is_fresh.
    + destruct Hinv. by constructor.
  - intros n. by eapply ll_remove_n_invalid.
  - by eapply ll_remove_first_invalid.
  - by eapply ll_pop_first_invalid.
  - intros cond. by eapply ll_remove_search_invalid.
  - intros comparator ref_value. by eapply ll_remove_find_invalid.
  - intros n Hn Hn1. by eapply ll_get_n_invalid.
  - by eapply ll_get_first_invalid.
  - intros comparator ref_value. by eapply ll_find_invalid.
  - intros f. by eapply ll_map_invalid.
  - by eapply ll_print_invalid.
  - by eapply ll_clear_invalid.
Qed.

(** ** Payloads in list order *)

Lemma lookup_payload (items : list (positive * Z)) k :
  items.*2 !! k = snd <$> items !! k.
Proof. by rewrite list_lookup_fmap. Qed.

Lemma fmap_splice (items : list (positive * Z)) k b v :
  (take k items ++ (b, v) :: drop k items).*2
  = take k items.*2 ++ v :: drop k items.*2.
Proof. by rewrite fmap_app, fmap_cons, fmap_take, fmap_drop. Qed.

Lemma lookup_splice_lt {A} (l : list A) k x i :
  (i < k ≤ length l)%nat → (take k l ++ x :: drop k l) !! i = l !! i.
Proof.
  intros Hi. rewrite lookup_app_l by (rewrite length_take; lia).
  apply lookup_take_lt. lia.
Qed.

Lemma lookup_splice_ge {A} (l : list A) k x i :
  (k ≤ i)%nat → (k ≤ length l)%nat →
  (take k l ++ x :: drop k l) !! S i = l !! i.
Proof.
  intros Hi Hk. rewrite lookup_app_r by (rewrite length_take; lia).
  rewrite length_take, Nat.min_l by done.
  replace (S i - k)%nat with (S (i - k)) by lia. simpl.
  rewrite lookup_drop. f_equal. lia.
Qed.

Lemma filter_none {A} (P : A → Prop) `{∀ x, Decision (P x)} (l : list A) :
  Forall (λ x, ¬ P x) l → filter P l = [].
Proof.
  induction 1 as [|x l Hx _ IH]; [done|]. by rewrite filter_cons_False.
Qed.

(** The log in the order of the calls, after a traversal by [g]. *)
Lemma reverse_calls_on g items c :
  reverse (calls_on g items ++ c) = reverse c ++ ((λ v, (g, v)) <$> items.*2).
Proof.
  unfold calls_on. rewrite reverse_app, reverse_involutive.
  f_equal. by rewrite <- list_fmap_compose.
Qed.

(** ** Nodes released by [ll_clear] *)

Lemma released_lookup addrs : ∀ h a,
  released addrs h !! a = if decide (a ∈ addrs) then None else h !! a.
Proof.
  induction addrs as [|x addrs IH]; intros h a.
  - destruct (decide (a ∈ [])) as [Hin|_]; [|done]. by apply elem_of_nil in Hin.
  - change (released (x :: addrs) h) with (released addrs (delete x h)).
    rewrite IH.
    destruct (decide (a ∈ addrs)) as [Hin|Hout];
      destruct (decide (a ∈ x :: addrs)) as [Hin'|Hout']; try done.
    + exfalso. apply Hout'. by right.
    + apply elem_of_cons in Hin' as [->|?]; [|done]. apply lookup_delete_eq.
    + apply lookup_delete_ne. intros ->. apply Hout'. left.
Qed.

Lemma released_all addrs h : dom h ⊆ list_to_set addrs → released addrs h = ∅.
Proof.
  intros Hdom. apply map_eq. intros a. rewrite released_lookup, lookup_empty.
  destruct (decide (a ∈ addrs)) as [Hin|Hout]; [done|].
  apply not_elem_of_dom. intros Ha. apply Hout.
  apply Hdom in Ha. by apply elem_of_list_to_set in Ha.
Qed.

(** ** The scans of [ll_remove_search] and [ll_remove_find] *)

(** The loop only looks at what its test answers. *)
Lemma ll_scan_loop_ext (g1 g2 : Z → bool) :
  (∀ v, g1 v = g2 v) →
  ∀ fuel last node s,
    ll_scan_loop fuel g1 last node s = ll_scan_loop fuel g2 last node s.
Proof.
  intros Hext fuel. induction fuel as [|fuel IH]; intros last node s;
    (destruct node as [a|]; [|done]);
    unfold ll_scan_loop; fold ll_scan_loop;
    unfold mbind, M_bind, node_get; (destruct (heap s !! a) as [nd|]; [|done]);
    rewrite Hext; destruct (g2 (node_val nd)); done.
Qed.

(** With tests that agree, the two functions differ in the order of their
    last steps only, which does not show in what they return and leave. *)
Lemma ll_remove_find_search comparator ref_value cond s :
  (∀ v, (cond v =? 0) = negb (comparator v ref_value =? 0)) →
  ll_remove_find comparator ref_value s = ll_remove_search cond s.
Proof.
  intros Hext. unfold ll_remove_find, ll_remove_search.
  destruct s as [[l|] h c]; [|done].
  unfold CHECK_VALID. mred. destruct (ll_valid_flag l); [done|]. mred.
  rewrite (ll_scan_loop_ext (λ v, cond v =? 0)
             (λ v, negb (comparator v ref_value =? 0))) by done.
  destruct (ll_scan_loop _ _ _ _ _) as [[last node] [lm1 h1 c1]|e]; [|done].
  destruct node as [a|]; [|done]. mred.
  destruct lm1 as [l1|]; [|done]. mred.
  match goal with
  | |- match ?X with _ => _ end = _ => destruct X as [[] [[l2|] h2 c2]|e]
  end; [|done|done].
  mred. destruct (h2 !! a) as [nd|] eqn:Ha; [|done]. mred.
  destruct (ll_val_teardown l2) as [td|]; [|done]. by mrun.
Qed.

(** ** The nodes a call allocates and releases *)

(** An insertion that returns has allocated one node, at the address
    [malloc] handed out. *)
Lemma ll_insert_n_dom s l items v n r s' :
  valid_list s l items → 0 ≤ n ≤ ll_len l → ll_len l < INT_MAX →
  ll_insert_n v n s = Ok r s' →
  dom (heap s') = {[fresh (dom (heap s))]} ∪ dom (heap s).
Proof.
  intros [Hmem Hflag Hch Hlen Hrange Htd Hlock Hunl] Hn Hmax.
  destruct s as [lm h c]. simpl in *. subst lm.
  set (b := fresh (dom h)).
  assert (Hb : h !! b = None) by (apply not_elem_of_dom, is_fresh).
  unfold ll_insert_n. mred. fold b.
  destruct (Z.eqb_spec n 0) as [->|Hn0].
  - mred. rewrite Hflag. mred. rewrite lookup_insert_eq. mred.
    intros [= _ <-]. simpl. by rewrite !dom_insert_L, union_assoc_L, union_idemp_L.
  - assert (Hk : (Z.to_nat (n - 1) < length items)%nat) by lia.
    apply lookup_lt_is_Some_2 in Hk as [[a w] Hk].
    destruct (chain_lookup _ _ _ _ _ _ Hch Hk) as (nd & Ha & Hndv & _ & _).
    assert (a ≠ b) by congruence.
    assert (Hunl1 : nodes_unlocked (<[b := Node v None Unlocked]> h))
      by (by apply nodes_unlocked_insert).
    rewrite (ll_select_n_min_1_spec l_write c _ Hunl1 l items);
      [ |done|by apply lseg_insert_frame; [eapply lseg_not_allocated|]|done|lia].
    rewrite Hk, lookup_insert_ne, Ha by done. mred.
    rewrite lookup_insert_eq. mred.
    rewrite lookup_insert_ne, lookup_insert_eq by done. mred.
    rewrite lookup_insert_ne, lookup_insert_eq by done. mred.
    rewrite lookup_insert_eq. mred.
    intros [= _ <-]. simpl. rewrite !dom_insert_L.
    apply elem_of_dom_2 in Ha. apply set_eq. intros x.
    rewrite !elem_of_union, !elem_of_singleton. intuition (subst; auto).
Qed.

(** A removal by index releases the node at that index and no other. *)
Lemma ll_remove_n_dom s l items n a v r s' :
  valid_list s l items → 0 ≤ n →
  items !! Z.to_nat n = Some (a, v) →
  ll_remove_n n s = Ok r s' →
  dom (heap s') = dom (heap s) ∖ {[a]}.
Proof.
  intros [Hmem Hflag Hch Hlen Hrange [td Htd'] Hlock Hunl] Hn Hk.
  destruct s as [lm h c]. simpl in *. subst lm.
  pose proof (lookup_lt_Some _ _ _ Hk) as Hlt.
  destruct (chain_lookup _ _ _ _ _ _ Hch Hk) as (nt & Ht & Hv & _ & _).
  unfold ll_remove_n. destruct (Z.eqb_spec n 0) as [->|Hn0].
  - change (Z.to_nat 0) with 0%nat in *.
    destruct items as [|[a' v'] rest]; [done|]. simpl in Hk. injection Hk as -> ->.
    pose proof Hch as (Hhd & _).
    mrun. intros [= _ <-]. simpl. by rewrite dom_delete_L, dom_insert_L,
      (subseteq_union_1_L {[a]}) by (apply singleton_subseteq_l; by eapply elem_of_dom_2).
  - assert (Hk' : (Z.to_nat (n - 1) < length items)%nat) by lia.
    apply lookup_lt_is_Some_2 in Hk' as [[p w] Hk'].
    replace (Z.to_nat n) with (S (Z.to_nat (n - 1))) in * by lia.
    destruct (chain_lookup _ _ _ _ _ _ Hch Hk') as (nd & Ha & Hndv & _ & Hpost).
    rewrite (drop_S _ _ _ Hk) in Hpost. destruct Hpost as (Hnxt & _).
    destruct (chain_lookup_fresh _ _ _ _ _ _ Hch Hk') as [_ Hfr].
    rewrite (drop_S _ _ _ Hk), fmap_cons in Hfr.
    apply not_elem_of_cons in Hfr as [Hne _]. simpl in Hne.
    mred.
    rewrite (ll_select_n_min_1_spec l_write c _ Hunl l items); [|done|done|done|lia].
    rewrite Hk'. mrun. intros [= _ <-]. simpl.
    rewrite dom_delete_L, !dom_insert_L.
    apply elem_of_dom_2 in Ha, Ht. apply set_eq. intros x.
    rewrite !elem_of_difference, !elem_of_union, !elem_of_singleton. intuition (subst; auto).
Qed.

(** A removal by predicate releases the node it found and no other. *)
Lemma ll_remove_search_dom s l pre a v post cond r s' :
  valid_list s l (pre ++ (a, v) :: post) →
  Forall (λ x, cond x.2 = 0) pre → cond v ≠ 0 →
  ll_remove_search cond s = Ok r s' →
  dom (heap s') = dom (heap s) ∖ {[a]}.
Proof.
  intros [Hmem Hflag Hch Hlen Hrange [td Htd] Hlock Hunl] Hpre Hv.
  destruct s as [lm h c]. simpl in *. subst lm.
  pose proof (chain_length_le_size _ _ _ Hch) as Hsize.
  rewrite length_app in Hsize. simpl in Hsize.
  assert (Hk : (pre ++ (a, v) :: post) !! length pre = Some (a, v))
    by (by rewrite list_lookup_middle).
  destruct (chain_lookup _ _ _ _ _ _ Hch Hk) as (nd & Ha & Hndv & Hseg & Hpost).
  rewrite take_app_length in Hseg.
  unfold ll_remove_search. mrun.
  rewrite (ll_scan_loop_found _ _ _ h pre _ _ _ a nd); [|done|done| | |lia].
  2:{ eapply Forall_impl; [exact Hpre|]. simpl. intros x ->. done. }
  2:{ rewrite Hndv. by apply Z.eqb_neq. }
  mrun.
  destruct pre as [|[p w] pre0 _] using rev_ind.
  - simpl in *. pose proof Hch as (Hhd & _). rewrite Hhd.
    rewrite bool_decide_eq_true_2 by done. mrun.
    intros [= _ <-]. simpl. rewrite dom_delete_L, dom_insert_L.
    apply elem_of_dom_2 in Ha. apply set_eq. intros x.
    rewrite !elem_of_difference, !elem_of_union, !elem_of_singleton.
    intuition (subst; auto).
  - rewrite last_ptr_snoc.
    assert (Hkp : ((pre0 ++ [(p, w)]) ++ (a, v) :: post) !! length pre0 = Some (p, w)).
    { rewrite <- app_assoc. simpl. by apply list_lookup_middle. }
    assert (Hka : ((pre0 ++ [(p, w)]) ++ (a, v) :: post) !! S (length pre0) = Some (a, v)).
    { rewrite length_app in Hk. simpl in Hk.
      by replace (S (length pre0)) with (length pre0 + 1)%nat by lia. }
    destruct (chain_lookup _ _ _ _ _ _ Hch Hkp) as (np & Hp & Hnpv & _ & _).
    destruct (chain_lookup_fresh _ _ _ _ _ _ Hch Hka) as [Hfr _].
    assert (Hne : a ≠ p).
    { intros ->. apply Hfr. rewrite (take_S_r _ _ _ Hkp), fmap_app.
      apply elem_of_app. right. left. }
    assert (Hhd : Some a ≠ ll_hd l).
    { intros Heq. apply Hfr.
      destruct pre0 as [|[q u] pre1]; simpl in *.
      - destruct Hch as (Hq & _). rewrite Hq in Heq. injection Heq as ->. left.
      - destruct Hch as (Hq & _). rewrite Hq in Heq. injection Heq as ->. left. }
    rewrite bool_decide_eq_false_2 by done. mrun.
    intros [= _ <-]. simpl. rewrite dom_delete_L, !dom_insert_L.
    apply elem_of_dom_2 in Ha, Hp. apply set_eq. intros x.
    rewrite !elem_of_difference, !elem_of_union, !elem_of_singleton.
    intuition (subst; auto).
Qed.

(** ** Worlds without garbage *)

Lemma no_garbage_valid s l items :
  valid_list s l items → dom (heap s) = list_to_set items.*1 → no_garbage s.
Proof.
  intros [Hmem _ Hch _ _ _ _ _] Hdom l' Hmem' _.
  rewrite Hmem in Hmem'. injection Hmem' as <-. by exists items.
Qed.

(** A world with the same nodes, and the same head in the list block. *)
Lemma no_garbage_frame s s' :
  no_garbage s → heap s' = heap s →
  (∀ l', list_mem s' = Some l' → ll_valid_flag l' = VALID →
         ∃ l, list_mem s = Some l ∧ ll_valid_flag l = VALID ∧ ll_hd l' = ll_hd l) →
  no_garbage s'.
Proof.
  intros Hng Hheap Hsame l' Hmem' Hflag'.
  destruct (Hsame l' Hmem' Hflag') as (l & Hmem & Hflag & Hhd).
  destruct (Hng l Hmem Hflag) as (items & Hch & Hdom).
  exists items. by rewrite Hheap, Hhd.
Qed.

Lemma list_to_set_delete (items : list (positive * Z)) k a v :
  NoDup items.*1 → items !! k = Some (a, v) →
  list_to_set (C := gset positive) (delete k items).*1
  = list_to_set items.*1 ∖ {[a]}.
Proof.
  intros Hnd Hk.
  rewrite <- (take_drop_middle _ _ _ Hk) in Hnd |- * at 2.
  rewrite delete_take_drop.
  rewrite !fmap_app, fmap_cons in *. simpl in *.
  apply NoDup_app in Hnd as (_ & Hpre & Hpost).
  apply NoDup_cons in Hpost as [Hpost _].
  assert (Hpre' : a ∉ (take k items).*1) by (intros Hin; by apply (Hpre a Hin); left).
  rewrite !list_to_set_app_L, list_to_set_cons.
  apply set_eq. intros x.
  rewrite !elem_of_difference, !elem_of_union, !elem_of_singleton,
    !elem_of_list_to_set.
  intuition (subst; auto).
Qed.

Lemma list_to_set_splice (items : list (positive * Z)) k b v :
  list_to_set (C := gset positive) (take k items ++ (b, v) :: drop k items).*1
  = {[b]} ∪ list_to_set items.*1.
Proof.
  rewrite <- (take_drop k items) at 3.
  rewrite !fmap_app, fmap_cons, !list_to_set_app_L, list_to_set_cons. simpl.
  apply set_eq. intros x.
  rewrite !elem_of_union, !elem_of_singleton. intuition (subst; auto).
Qed.

(** One call on a list that is valid up to its lock, and whose nodes are all
    the nodes there are. *)
Lemma exec_no_garbage s l items c s' :
  list_mem s = Some l →
  valid_list (unlock_list s) (set_m Unlocked l) items →
  dom (heap s) = list_to_set items.*1 →
  call_typed c l →
  exec c s = Ok tt s' → no_garbage s'.
Proof.
  intros Hmem Hvalid Hdom Htyped Hrun.
  pose proof Hvalid as [Hmem0 Hflag0 Hch0 Hlen Hrange [td Htd] Hlock0 Hunl0].
  assert (Hlen0 : ll_len (set_m Unlocked l) = ll_len l) by done.
  assert (Hheap0 : heap (unlock_list s) = heap s) by done.
  assert (Hng0 : no_garbage (unlock_list s)) by (by eapply no_garbage_valid).
  assert (Hframe : ∀ k c', no_garbage (State (Some (set_m k l)) (heap s) c')).
  { intros k c'. apply (no_garbage_frame (unlock_list s)); [done|done|].
    simpl. intros l' [= <-] _. exists (set_m Unlocked l). split_and!; [done|done|by destruct l]. }
  assert (Hngs : no_garbage s).
  { apply (no_garbage_frame (unlock_list s)); [done|done|].
    intros l' Hmem' _. rewrite Hmem in Hmem'. injection Hmem' as <-.
    by exists (set_m Unlocked l). }
  assert (Hnd : NoDup items.*1) by (by eapply chain_NoDup).
  assert (Hins : ∀ v n r, 0 ≤ n ≤ ll_len l → ll_len l < INT_MAX →
            ll_insert_n v n s = Ok r s' → no_garbage s').
  { intros v n r Hn Hmax Hins. rewrite <- ll_insert_n_unlock in Hins by lia.
    destruct (ll_insert_n_spec (unlock_list s) (set_m Unlocked l) items v n Hvalid Hn Hmax)
      as (s1 & l1 & Hrun1 & Hvalid1 & _).
    pose proof (ll_insert_n_dom _ _ _ _ _ _ _ Hvalid Hn Hmax Hins) as Hdom'. rewrite Hrun1 in Hins. injection Hins as _ ->.
    eapply no_garbage_valid; [done|].
    by rewrite Hdom', list_to_set_splice, Hheap0, Hdom. }
  assert (Hrem : ∀ n r, 0 ≤ n < ll_len l →
            ll_remove_n n s = Ok r s' → no_garbage s').
  { intros n r Hn Hrem. rewrite <- ll_remove_n_unlock in Hrem by lia.
    assert (Hk : (Z.to_nat n < length items)%nat) by lia.
    apply lookup_lt_is_Some_2 in Hk as [[a v] Hk].
    destruct (ll_remove_n_spec (unlock_list s) (set_m Unlocked l) items n a v td Hvalid ltac:(lia) Hk Htd)
      as (s1 & l1 & Hrun1 & Hvalid1 & _).
    pose proof (ll_remove_n_dom (unlock_list s) (set_m Unlocked l) items n a v r s' Hvalid ltac:(lia) Hk Hrem)
      as Hdom'. rewrite Hrun1 in Hrem. injection Hrem as _ ->.
    eapply no_garbage_valid; [done|].
    by rewrite Hdom', (list_to_set_delete _ _ a v), Hheap0, Hdom. }
  assert (Hsearch : ∀ cond r, ll_remove_search cond s = Ok r s' → no_garbage s').
  { intros cond r Hsearch. rewrite <- ll_remove_search_unlock in Hsearch.
    destruct (scan_split (λ v, cond v =? 0) items)
      as [Hall|(pre & a & v & post & -> & Hpre & Hv)].
    - rewrite (ll_remove_search_not_found _ _ _ _ Hvalid) in Hsearch.
      + injection Hsearch as _ <-.
        replace (set_m (Locked l_write) (set_m Unlocked l)) with (set_m (Locked l_write) l)
          by (by destruct l).
        apply Hframe.
      + eapply Forall_impl; [exact Hall|]. simpl. intros x Hx.
        by apply Z.eqb_eq in Hx.
    - assert (Hpre' : Forall (λ x, cond x.2 = 0) pre).
      { eapply Forall_impl; [exact Hpre|]. simpl. intros x Hx.
        by apply Z.eqb_eq in Hx. }
      apply Z.eqb_neq in Hv.
      destruct (ll_remove_search_found _ _ _ _ _ _ _ _ Hvalid Htd Hpre' Hv)
        as (s1 & l1 & Hrun1 & Hvalid1 & _).
      pose proof (ll_remove_search_dom _ _ _ _ _ _ _ _ _ Hvalid Hpre' Hv Hsearch)
        as Hdom'. rewrite Hrun1 in Hsearch. injection Hsearch as _ ->.
      eapply no_garbage_valid; [done|].
      rewrite Hdom', Hheap0, Hdom.
      rewrite <- (list_to_set_delete _ (length pre) a v);
        [|done|by apply list_lookup_middle].
      by rewrite delete_middle. }
  destruct c; simpl in Htyped, Hrun.
  - (* ll_length *)
    apply ignore_inv in Hrun as [r Hrun].
    rewrite <- ll_length_unlock, (ll_length_spec _ _ _ Hvalid) in Hrun.
    by injection Hrun as _ <-.
  - (* ll_insert_n *)
    apply ignore_inv in Hrun as [r Hrun]. destruct Htyped as [_ Hmax].
    destruct (decide (0 ≤ n ≤ ll_len l)) as [Hin|Hout]; [by eapply Hins|].
    destruct (Z.ltb_spec n 0).
    + rewrite ll_insert_n_negative in Hrun by done. by injection Hrun as _ <-.
    + rewrite <- ll_insert_n_unlock in Hrun by done.
      rewrite (ll_insert_n_out_of_range _ _ _ _ _ Hvalid) in Hrun by (simpl; lia).
      by injection Hrun as _ <-.
  - (* ll_insert_first *)
    apply ignore_inv in Hrun as [r Hrun]. eapply (Hins val 0); [lia|done|done].
  - (* ll_insert_last *)
    apply ignore_inv in Hrun as [r Hrun].
    unfold ll_insert_last, mbind, M_bind, list_get in Hrun. rewrite Hmem in Hrun.
    eapply (Hins val (ll_len l)); [lia|done|done].
  - (* ll_remove_n *)
    apply ignore_inv in Hrun as [r Hrun].
    destruct (decide (0 ≤ n < ll_len l)) as [Hin|Hout]; [by eapply Hrem|].
    destruct (Z.ltb_spec n 0).
    + rewrite ll_remove_n_negative in Hrun by done. by injection Hrun as _ <-.
    + rewrite <- ll_remove_n_unlock in Hrun by done.
      destruct (decide (n = ll_len l)) as [->|Hne].
      * by rewrite (ll_remove_n_at_length _ _ _ _ Hvalid) in Hrun.
      * rewrite (ll_remove_n_out_of_range _ _ _ _ Hvalid) in Hrun by (simpl; lia).
        by injection Hrun as _ <-.
  - (* ll_remove_first *)
    apply ignore_inv in Hrun as [r Hrun]. unfold ll_remove_first in Hrun.
    destruct (decide (0 < ll_len l)) as [Hin|Hout]; [eapply (Hrem 0); [lia|done]|].
    rewrite <- ll_remove_n_unlock in Hrun by done.
    by rewrite (ll_remove_n_at_length _ _ _ _ Hvalid) in Hrun by (simpl; lia).
  - (* ll_pop_first *)
    apply ignore_inv in Hrun as [r Hrun]. rewrite <- ll_pop_first_unlock in Hrun.
    destruct items as [|[a v] rest].
    + rewrite (ll_pop_first_empty _ _ Hvalid) in Hrun. by injection Hrun as _ <-.
    + destruct (ll_pop_first_spec (unlock_list s) (set_m Unlocked l) a v rest Hvalid)
        as (s1 & l1 & Hrun1 & Hvalid1 & _ & Hheap1 & _). rewrite Hrun1 in Hrun. injection Hrun as _ <-.
      eapply no_garbage_valid; [done|].
      rewrite Hheap1, dom_delete_L, Hheap0, Hdom.
      by rewrite <- (list_to_set_delete ((a, v) :: rest) 0 a v).
  - (* ll_remove_search *)
    apply ignore_inv in Hrun as [r Hrun]. by eapply Hsearch.
  - (* ll_get_n *)
    apply ignore_inv in Hrun as [r Hrun].
    destruct (decide (n = -1)) as [->|Hn1];
      [by rewrite ll_get_n_at_minus_1 in Hrun|].
    destruct (Z.ltb_spec n 0).
    + rewrite ll_get_n_negative in Hrun by lia. by injection Hrun as _ <-.
    + destruct (decide (n = INT_MAX)) as [->|Hmax].
      * rewrite ll_get_n_INT_MAX in Hrun. by injection Hrun as _ <-.
      * rewrite <- ll_get_n_unlock in Hrun by lia.
        rewrite (ll_get_n_spec _ _ _ _ Hvalid) in Hrun by lia.
        by injection Hrun as _ <-.
  - (* ll_get_first *)
    apply ignore_inv in Hrun as [r Hrun]. unfold ll_get_first in Hrun.
    rewrite <- ll_get_n_unlock in Hrun by (unfold INT_MAX; lia).
    rewrite (ll_get_n_spec _ _ _ _ Hvalid) in Hrun by (unfold INT_MAX; lia).
    by injection Hrun as _ <-.
  - (* ll_map *)
    rewrite <- ll_map_unlock in Hrun. destruct f as [g|].
    + rewrite (ll_map_spec _ _ _ _ Hvalid) in Hrun. injection Hrun as <-.
      simpl. rewrite Hmem. apply Hframe.
    + rewrite (ll_map_null _ _ _ Hvalid) in Hrun.
      destruct items; [|done]. by injection Hrun as <-.
  - (* ll_print *)
    rewrite (ll_print_spec s l items) in Hrun; [|done..].
    injection Hrun as <-. rewrite Hmem.
    replace l with (set_m (ll_m l) l) at 1 by (by destruct l). apply Hframe.
  - (* ll_find *)
    apply ignore_inv in Hrun as [r Hrun]. rewrite <- ll_find_unlock in Hrun.
    destruct (scan_split (λ v, negb (comparator v ref_value =? 0)) items)
      as [Hall|(pre & a & v & post & -> & Hpre & Hv)].
    + rewrite (ll_find_not_found _ _ _ _ _ Hvalid) in Hrun.
      * by injection Hrun as _ <-.
      * eapply Forall_impl; [exact Hall|]. simpl. intros x Hx.
        by apply negb_true_iff, Z.eqb_neq in Hx.
    + rewrite (ll_find_found _ _ _ _ _ _ _ _ Hvalid) in Hrun.
      * by injection Hrun as _ <-.
      * eapply Forall_impl; [exact Hpre|]. simpl. intros x Hx.
        by apply negb_true_iff, Z.eqb_neq in Hx.
      * by apply negb_false_iff, Z.eqb_eq in Hv.
  - (* ll_remove_find *)
    apply ignore_inv in Hrun as [r Hrun].
    rewrite (ll_remove_find_search _ _
               (λ v, if comparator v ref_value =? 0 then 1 else 0)) in Hrun
      by (intros v; by destruct (comparator v ref_value =? 0)).
    by eapply Hsearch.
  - (* ll_clear *)
    rewrite <- ll_clear_unlock, (ll_clear_spec _ _ _ _ Hvalid Htd) in Hrun.
    injection Hrun as <-. by intros l' [= <-].
  - (* ll_delete *)
    rewrite <- ll_delete_unlock, (ll_delete_spec _ _ _ _ Hvalid Htd) in Hrun.
    injection Hrun as <-. by intros l'.
Qed.

(** ** One call on an invalidated list *)

Lemma exec_invalid s l c s' :
  invalid_list s l → call_typed c l → exec c s = Ok tt s' →
  (list_mem s' = None ∨ invalid_list s' l) ∧
  calls s' = calls s ∧ heap s ⊆ heap s'.
Proof.
  intros Hinv Htyped Hrun.
  assert (Hsame : ∀ {A} (m : M A) r, m s = Ok r s → ignore m s = Ok tt s' →
            (list_mem s' = None ∨ invalid_list s' l) ∧
            calls s' = calls s ∧ heap s ⊆ heap s').
  { intros A m r Hm Hig. apply ignore_inv in Hig as [r' Hig].
    rewrite Hm in Hig. injection Hig as _ <-. split; [by right|done]. }
  assert (Hins : ∀ v n, ignore (ll_insert_n v n) s = Ok tt s' →
            (list_mem s' = None ∨ invalid_list s' l) ∧
            calls s' = calls s ∧ heap s ⊆ heap s').
  { intros v n Hig. apply ignore_inv in Hig as [r' Hig].
    rewrite (ll_insert_n_invalid _ _ Hinv) in Hig. injection Hig as _ <-.
    simpl. split_and!; [|done|].
    - right. destruct Hinv. by constructor.
    - case_decide; [|done]. apply insert_subseteq, not_elem_of_dom, is_fresh. }
  destruct c; simpl in Htyped, Hrun.
  - eapply Hsame; [|done]. by eapply ll_length_invalid.
  - by eapply Hins.
  - by eapply Hins.
  - eapply (Hins val (ll_len l)).
    unfold ignore, ll_insert_last, mbind, M_bind, list_get in *.
    by rewrite (il_mem _ _ Hinv) in Hrun.
  - eapply Hsame; [|done]. by eapply ll_remove_n_invalid.
  - eapply Hsame; [|done]. by eapply ll_remove_first_invalid.
  - eapply Hsame; [|done]. by eapply ll_pop_first_invalid.
  - eapply Hsame; [|done]. by eapply ll_remove_search_invalid.
  - destruct (decide (n = -1)) as [->|Hn1].
    + apply ignore_inv in Hrun as [r Hrun]. by rewrite ll_get_n_at_minus_1 in Hrun.
    + eapply Hsame; [|done]. by eapply ll_get_n_invalid.
  - eapply Hsame; [|done]. by eapply ll_get_first_invalid.
  - rewrite (ll_map_invalid _ _ Hinv) in Hrun. injection Hrun as <-.
    split; [by right|done].
  - rewrite (ll_print_invalid _ _ Hinv) in Hrun. injection Hrun as <-.
    split; [by right|done].
  - eapply Hsame; [|done]. by eapply ll_find_invalid.
  - eapply Hsame; [|done]. by eapply ll_remove_find_invalid.
  - rewrite (ll_clear_invalid _ _ Hinv) in Hrun. injection Hrun as <-.
    split; [by right|done].
  - rewrite (ll_delete_invalid _ _ Hinv) in Hrun. injection Hrun as <-.
    split; [by left|done].
Qed.

(** One call from a world that is coherent and has no garbage. *)
Lemma exec_coherent_no_garbage s l c s' :
  coherent s → no_garbage s →
  list_mem s = Some l → call_typed c l → exec c s = Ok tt s' →
  coherent s' ∧ no_garbage s'.
Proof.
  intros Hco Hng Hmem Htyped Hrun.
  split; [by eapply exec_typed_coherent|].
  unfold coherent in Hco. rewrite Hmem in Hco.
  destruct (ll_valid_flag l) eqn:Hflag.
  - assert (Hinv : invalid_list s l) by (subst l; by constructor).
    destruct (exec_invalid _ _ _ _ Hinv Htyped Hrun) as ([Hnone|Hinv'] & _).
    + intros l' Hmem'. congruence.
    + intros l' Hmem' Hflag'. destruct Hinv' as [Hmem1 Hflag1 _]. congruence.
  - destruct Hco as [items Hvalid].
    destruct (Hng l Hmem Hflag) as (items' & Hch' & Hdom).
    pose proof (vl_chain _ _ _ Hvalid) as Hch.
    assert (items' = items) as ->.
    { eapply chain_det; [exact Hch'|]. by destruct s, l. }
    by eapply exec_no_garbage.
Qed.

(** * The properties of the specification *)

(** ** Removal at an index outside the list *)

(** C1. The specification has [ll_remove_n] answer -1, call nothing and leave
    the list alone for every index outside [0, length), the length itself
    and index 0 of an empty list included. The code does so below 0 and above
    the length. At exactly the length of a valid list it does not return: it
    goes through a null pointer, in [list->hd = tmp->nxt] for an empty list
    and in [tmp->val] otherwise. *)
Theorem ll_remove_n_at_length_faults s l items :
  valid_list s l items →
  ll_remove_n (ll_len l) s = Fault NullDeref ∧
  ∀ n, n < 0 ∨ ll_len l < n → ll_remove_n n s = Ok (-1) s.
Proof.
  intros Hvalid. split.
  - by eapply ll_remove_n_at_length.
  - intros n Hn. by eapply ll_remove_n_out_of_range.
Qed.

Lemma ll_remove_n_at_length_faults_witness :
  valid_list empty_world empty_list [] ∧
  ll_remove_n (ll_len empty_list) empty_world = Fault NullDeref ∧
  ∀ n, n < 0 ∨ ll_len empty_list < n →
       ll_remove_n n empty_world = Ok (-1) empty_world.
Proof.
  split.
  - apply valid_listb_sound. vm_compute. reflexivity.
  - apply (ll_remove_n_at_length_faults empty_world empty_list []).
    apply valid_listb_sound. vm_compute. reflexivity.
Defined.

(** The two inputs the specification names, run, and one above the length. *)
Example ll_remove_n_0_of_empty : ll_remove_n 0 empty_world = Fault NullDeref.
Proof. vm_compute. reflexivity. Qed.

Example ll_remove_n_3_of_three : ll_remove_n 3 three_world = Fault NullDeref.
Proof. vm_compute. reflexivity. Qed.

Example ll_remove_n_4_of_three : ll_remove_n 4 three_world = Ok (-1) three_world.
Proof. apply (ll_remove_n_out_of_range _ _ _ _ three_world_valid). right. simpl. lia. Qed.

(** ** Lengths *)

(** C2. On a valid list, [ll_insert_n] at an index from 0 to the length
    returns the length plus one and leaves that in [len]. A removal returns
    a value other than -1 when [ll_remove_n] is given an index below the
    length, [ll_remove_search] a predicate that some payload satisfies,
    [ll_remove_find] a comparator that finds some payload equal; and a
    removal that returns anything but -1 has taken one off [len] and returns
    the new [len]. An insertion or a removal that returns -1 leaves [len] as
    it was. For the insertion, [len + 1] is taken to fit an [int]. *)
Theorem length_accounting s l items :
  valid_list s l items →
  (∀ v n, 0 ≤ n ≤ ll_len l → ll_len l < INT_MAX →
     ∃ s' l', ll_insert_n v n s = Ok (ll_len l + 1) s' ∧
              list_mem s' = Some l' ∧ ll_len l' = ll_len l + 1) ∧
  (∀ n, 0 ≤ n < ll_len l → ∃ s', ll_remove_n n s = Ok (ll_len l - 1) s') ∧
  (∀ cond, Exists (λ x, cond x.2 ≠ 0) items →
     ∃ s', ll_remove_search cond s = Ok (ll_len l - 1) s') ∧
  (∀ comparator ref_value, Exists (λ x, comparator x.2 ref_value = 0) items →
     ∃ s', ll_remove_find comparator ref_value s = Ok (ll_len l - 1) s') ∧
  (∀ op r s', removal op → op s = Ok r s' → r ≠ -1 →
     ∃ l', list_mem s' = Some l' ∧ ll_len l' = ll_len l - 1 ∧ r = ll_len l') ∧
  (∀ op s', removal op → op s = Ok (-1) s' →
     ∃ l', list_mem s' = Some l' ∧ ll_len l' = ll_len l) ∧
  (∀ v n s', ll_len l < INT_MAX → ll_insert_n v n s = Ok (-1) s' →
     ∃ l', list_mem s' = Some l' ∧ ll_len l' = ll_len l).
Proof.
  intros Hvalid. pose proof (valid_list_len_nonneg _ _ _ Hvalid) as Hlen.
  pose proof Hvalid as [Hmem _ _ _ _ _ _ _].
  split_and!.
  - intros v n Hn Hmax.
    destruct (ll_insert_n_spec _ _ _ v n Hvalid Hn Hmax)
      as (s' & l' & Hrun & [Hmem' _ _ Hlen' _ _ _ _] & _).
    exists s', l'. split_and!; [done|done|].
    rewrite Hlen', length_splice by (destruct Hvalid; lia).
    destruct Hvalid. lia.
  - intros n Hn.
    destruct (ll_remove_n_cases _ _ _ n Hvalid)
      as [[? _]|[[? _]|[_ (v & s' & Hrun & _)]]]; [lia|lia|eauto].
  - intros cond Hex.
    destruct (ll_remove_search_cases _ _ _ cond Hvalid)
      as [[Hall _]|(pre & a & v & post & s' & _ & _ & _ & Hrun & _)]; [|eauto].
    apply Exists_exists in Hex as (x & Hx & Hc).
    by apply (proj1 (Forall_forall _ _) Hall) in Hx.
  - intros comparator ref_value Hex.
    destruct (ll_remove_find_cases _ _ _ comparator ref_value Hvalid)
      as [[Hall _]|(pre & a & v & post & s' & _ & _ & _ & Hrun & _)]; [|eauto].
    apply Exists_exists in Hex as (x & Hx & Hc).
    by apply (proj1 (Forall_forall _ _) Hall) in Hx.
  - intros op r s' Hop Hrun Hr.
    destruct (removal_cases _ _ _ _ Hvalid Hop)
      as [(s1 & l1 & Hrun1 & _)|[Hrun1|(k & v & s1 & Hrun1 & Hrem)]].
    + rewrite Hrun1 in Hrun. by injection Hrun as <- <-.
    + by rewrite Hrun1 in Hrun.
    + rewrite Hrun1 in Hrun. injection Hrun as <- <-.
      destruct Hrem as (a & td & l' & _ & _ & _ & [Hmem' _ _ _ _ _ _ _] & Hlen' & _).
      exists l'. split_and!; [done|done|lia].
  - intros op s' Hop Hrun.
    destruct (removal_cases _ _ _ _ Hvalid Hop)
      as [(s1 & l1 & Hrun1 & Hmem1 & Hlen1 & _)|[Hrun1|(k & v & s1 & Hrun1 & Hrem)]].
    + rewrite Hrun1 in Hrun. injection Hrun as <-. eauto.
    + by rewrite Hrun1 in Hrun.
    + rewrite Hrun1 in Hrun. injection Hrun as Hr _.
      by apply (removed_not_sentinel _ _ _ _ _ _ _ Hvalid) in Hrem.
  - intros v n s' Hmax Hrun.
    destruct (decide (0 ≤ n ≤ ll_len l)) as [Hn|Hn].
    + destruct (ll_insert_n_spec _ _ _ v n Hvalid Hn Hmax) as (s1 & l1 & Hrun1 & _).
      rewrite Hrun1 in Hrun. injection Hrun as Hr _. lia.
    + rewrite (ll_insert_n_out_of_range _ _ _ v n Hvalid) in Hrun by lia.
      injection Hrun as <-. eauto.
Qed.

Lemma length_accounting_witness :
  valid_list three_world three_list three_items ∧
  ∃ s' l', ll_insert_n 7 1 three_world = Ok (ll_len three_list + 1) s' ∧
           list_mem s' = Some l' ∧ ll_len l' = ll_len three_list + 1.
Proof.
  split.
  - apply valid_listb_sound. vm_compute. reflexivity.
  - apply (length_accounting three_world three_list three_items).
    + apply valid_listb_sound. vm_compute. reflexivity.
    + simpl. lia.
    + vm_compute. reflexivity.
Defined.

(** ** Lookup after insertion *)

(** C4. After [ll_insert_n] of [v] at an index [n] from 0 to the length of a
    valid list, [ll_get_n] at [n] returns [v]. [len + 1] is taken to fit an
    [int]. *)
Theorem ll_get_n_after_insert s l items v n :
  valid_list s l items → 0 ≤ n ≤ ll_len l → ll_len l < INT_MAX →
  ∃ s', ll_insert_n v n s = Ok (ll_len l + 1) s' ∧ ll_get_n n s' = Ok v s'.
Proof.
  intros Hvalid Hn Hmax.
  destruct (ll_insert_n_spec _ _ _ v n Hvalid Hn Hmax)
    as (s' & l' & Hrun & Hvalid' & _).
  exists s'. split; [done|].
  rewrite (ll_get_n_spec _ _ _ n Hvalid') by lia.
  pose proof Hvalid as [_ _ _ Hlen _ _ _ _].
  rewrite list_lookup_middle; [done|].
  rewrite length_take. lia.
Qed.

Lemma ll_get_n_after_insert_witness :
  valid_list three_world three_list three_items ∧
  0 ≤ 3 ≤ ll_len three_list ∧ ll_len three_list < INT_MAX ∧
  ∃ s', ll_insert_n 42 3 three_world = Ok (ll_len three_list + 1) s' ∧
        ll_get_n 3 s' = Ok 42 s'.
Proof.
  assert (Hv : valid_list three_world three_list three_items)
    by (apply valid_listb_sound; vm_compute; reflexivity).
  assert (Hn : 0 ≤ 3 ≤ ll_len three_list) by (simpl; lia).
  assert (Hmax : ll_len three_list < INT_MAX) by (vm_compute; reflexivity).
  split_and!; [done..|].
  exact (ll_get_n_after_insert three_world three_list three_items 42 3 Hv Hn Hmax).
Defined.

(** ** Positional selection *)

(** C5. [ll_select_n_min_1] below index 0 answers -1 whatever the world is,
    the list block allocated or not, and leaves it as it is; at index 0 it
    answers 0 in the same way, the caller's [*node] and every lock untouched;
    at an index [n] from 1 to the length of a valid list it answers 0 with
    [*node] on the node at index [n - 1], that node's lock and the list's
    taken and nothing else changed; above the length it answers -1 with all
    locks released. *)
Theorem ll_select_n_min_1_correct :
  (∀ s node n lt, n < 0 → ll_select_n_min_1 node n lt s = Ok (-1, node) s) ∧
  (∀ s node lt, ll_select_n_min_1 node 0 lt s = Ok (0, node) s) ∧
  (∀ s l items node n lt,
     valid_list s l items → 1 ≤ n ≤ ll_len l →
     ∃ a v nd,
       items !! Z.to_nat (n - 1) = Some (a, v) ∧
       heap s !! a = Some nd ∧ node_val nd = v ∧
       ll_select_n_min_1 node n lt s
       = Ok (0, Some a)
            (State (Some (set_m (Locked lt) l))
                   (<[a := set_node_m (Locked lt) nd]> (heap s)) (calls s))) ∧
  (∀ s l items node n lt,
     valid_list s l items → ll_len l < n →
     ll_select_n_min_1 node n lt s = Ok (-1, None) s).
Proof.
  split_and!.
  - intros s node n lt Hn. unfold ll_select_n_min_1.
    by destruct (Z.ltb_spec n 0); [|lia].
  - done.
  - intros s l items node n lt [Hmem Hflag Hch Hlen Hrange Htd Hlock Hunl] Hn.
    destruct s as [lm h c]. simpl in *. subst lm.
    assert (Hk : (Z.to_nat (n - 1) < length items)%nat) by lia.
    apply lookup_lt_is_Some_2 in Hk as [[a v] Hk].
    destruct (chain_lookup _ _ _ _ _ _ Hch Hk) as (nd & Ha & Hv & _ & _).
    exists a, v, nd. split_and!; [done..|].
    rewrite (ll_select_n_min_1_spec lt c h Hunl l items); [|done|done|done|lia].
    by rewrite Hk, Ha.
  - intros s l items node n lt [Hmem Hflag Hch Hlen Hrange Htd Hlock Hunl] Hn.
    destruct s as [lm h c]. simpl in *. subst lm.
    rewrite (ll_select_n_min_1_spec lt c h Hunl l items); [|done|done|done|lia].
    rewrite lookup_ge_None_2 by lia. by rewrite set_m_id.
Qed.

Lemma ll_select_n_min_1_correct_witness :
  valid_list three_world three_list three_items ∧
  ll_select_n_min_1 None 4 l_read three_world = Ok (-1, None) three_world.
Proof.
  split.
  - apply valid_listb_sound. vm_compute. reflexivity.
  - apply (ll_select_n_min_1_correct) with (l := three_list) (items := three_items).
    + apply valid_listb_sound. vm_compute. reflexivity.
    + simpl. lia.
Defined.

(** The node before index 2 of the three-node list, selected for writing. *)
Example ll_select_n_min_1_2_of_three :
  ll_select_n_min_1 None 2 l_write three_world
  = Ok (0, Some 2%positive)
       (State (Some (set_m (Locked l_write) three_list))
              (<[2%positive := Node 20 (Some 3%positive) (Locked l_write)]> three_heap)
              []).
Proof. vm_compute. reflexivity. Qed.

(** ** Popping against removing *)

(** C7. [ll_pop_first] on a valid list with a first node returns that node's
    payload, releases the node, takes one off [len] and calls nothing; on an
    empty or on an invalid list it returns [NULL] and changes nothing. A
    removal by index, by predicate or by comparator that returns anything
    but -1 has called the teardown callback once, on the payload of the node
    it took out, and nothing else. *)
Theorem pop_keeps_removal_tears_down :
  (∀ s l a v rest,
     valid_list s l ((a, v) :: rest) →
     ∃ s' l', ll_pop_first s = Ok v s' ∧
              valid_list s' l' rest ∧
              ll_len l' = ll_len l - 1 ∧
              heap s' = delete a (heap s) ∧
              calls s' = calls s) ∧
  (∀ s l, valid_list s l [] → ll_pop_first s = Ok NULL s) ∧
  (∀ s l, invalid_list s l → ll_pop_first s = Ok NULL s) ∧
  (∀ s l items op r s',
     valid_list s l items → removal op → op s = Ok r s' → r ≠ -1 →
     ∃ k a v td,
       items !! k = Some (a, v) ∧
       ll_val_teardown l = Some td ∧
       calls s' = (td, v) :: calls s ∧
       ∃ l', valid_list s' l' (delete k items)).
Proof.
  split_and!.
  - intros s l a v rest Hvalid.
    destruct (ll_pop_first_spec _ _ _ _ _ Hvalid)
      as (s' & l' & Hrun & Hvalid' & Hlen' & Hheap & Hcalls & _).
    by exists s', l'.
  - intros s l Hvalid. by eapply ll_pop_first_empty.
  - intros s l Hinv. by eapply ll_pop_first_invalid.
  - intros s l items op r s' Hvalid Hop Hrun Hr.
    destruct (removal_cases _ _ _ _ Hvalid Hop)
      as [(s1 & l1 & Hrun1 & _)|[Hrun1|(k & v & s1 & Hrun1 & Hrem)]].
    + rewrite Hrun1 in Hrun. by injection Hrun as <- <-.
    + by rewrite Hrun1 in Hrun.
    + rewrite Hrun1 in Hrun. injection Hrun as <- <-.
      destruct Hrem as (a & td & l' & Hk & Htd & _ & Hvalid' & _ & Hcalls).
      exists k, a, v, td. split_and!; eauto.
Qed.

Lemma pop_keeps_removal_tears_down_witness :
  valid_list three_world three_list three_items ∧
  ∃ s' l', ll_pop_first three_world = Ok 10 s' ∧
           valid_list s' l' [(2%positive, 20); (3%positive, 30)] ∧
           ll_len l' = ll_len three_list - 1 ∧
           heap s' = delete 1%positive (heap three_world) ∧
           calls s' = calls three_world.
Proof.
  split.
  - apply valid_listb_sound. vm_compute. reflexivity.
  - apply (pop_keeps_removal_tears_down).
    apply valid_listb_sound. vm_compute. reflexivity.
Defined.

(** The removals of the middle payload of the three-node list. *)
Example ll_remove_n_1_of_three :
  ∃ s', ll_remove_n 1 three_world = Ok 2 s' ∧ calls s' = [(1%nat, 20)].
Proof. eexists. split; [vm_compute; reflexivity|reflexivity]. Qed.

Example ll_remove_search_20_of_three :
  ∃ s', ll_remove_search (λ v, if v =? 20 then 1 else 0) three_world = Ok 2 s' ∧
        calls s' = [(1%nat, 20)].
Proof. eexists. split; [vm_compute; reflexivity|reflexivity]. Qed.

Example ll_remove_find_20_of_three :
  ∃ s', ll_remove_find (λ v w, v - w) 20 three_world = Ok 2 s' ∧
        calls s' = [(1%nat, 20)].
Proof. eexists. split; [vm_compute; reflexivity|reflexivity]. Qed.

(** ** The assertion in [ll_clear] *)

(** C8. On a valid list the loop of [ll_clear] ends with [len] at 0, so
    [assert(list->len == 0)] holds and [ll_clear] returns. *)
Theorem ll_clear_assertion_holds s l items :
  valid_list s l items →
  (∃ s1 l1,
     ll_clear_loop (S (size (heap s))) (ll_hd l)
       (State (Some (set_m (Locked l_write) l)) (heap s) (calls s)) = Ok tt s1 ∧
     list_mem s1 = Some l1 ∧ ll_len l1 = 0) ∧
  (∃ s', ll_clear s = Ok tt s') ∧
  ll_clear s ≠ Fault AssertFail.
Proof.
  intros Hvalid. pose proof Hvalid as [Hmem Hflag Hch Hlen Hrange [td Htd] Hlock Hunl].
  pose proof (chain_length_le_size _ _ _ Hch) as Hsize.
  split_and!.
  - eexists _, _. split_and!.
    + apply (ll_clear_loop_spec td items); simpl; [done|done|done|lia|lia].
    + reflexivity.
    + simpl. lia.
  - eexists. by eapply ll_clear_spec.
  - by erewrite ll_clear_spec.
Qed.

Lemma ll_clear_assertion_holds_witness :
  valid_list three_world three_list three_items ∧
  ll_clear three_world ≠ Fault AssertFail.
Proof.
  split.
  - apply valid_listb_sound. vm_compute. reflexivity.
  - apply (ll_clear_assertion_holds three_world three_list three_items).
    apply valid_listb_sound. vm_compute. reflexivity.
Defined.

Example ll_clear_three :
  ll_clear three_world
  = Ok tt (State (Some (LL 0 None Unlocked None None INVALID)) ∅
             [(1%nat, 30); (1%nat, 20); (1%nat, 10)]).
Proof. vm_compute. reflexivity. Qed.

(** ** Clearing twice, deleting after clearing *)

(** C9. [ll_clear] on an invalid list returns with nothing changed and
    nothing called; [ll_delete] on an invalid list releases the list block
    and leaves the heap and the log of calls alone, which is what [ll_clear]
    followed by the release does there; so on a valid list, [ll_clear] and
    then [ll_delete] is [ll_delete]. *)
Theorem clear_then_delete :
  (∀ s l, invalid_list s l →
     ll_clear s = Ok tt s ∧
     ll_delete s = Ok tt (State None (heap s) (calls s)) ∧
     ll_delete s = (ll_clear;; free_list) s) ∧
  (∀ s l items, valid_list s l items → (ll_clear;; ll_delete) s = ll_delete s).
Proof.
  split.
  - intros s l Hinv.
    pose proof (ll_clear_invalid _ _ Hinv) as Hclear.
    pose proof (ll_delete_invalid _ _ Hinv) as Hdelete.
    split_and!; [done|done|].
    rewrite Hdelete. unfold mbind, M_bind. rewrite Hclear.
    destruct Hinv as [Hmem _ _]. unfold free_list. by rewrite Hmem.
  - intros s l items Hvalid.
    pose proof Hvalid as [_ _ _ _ _ [td Htd] _ _].
    destruct (ll_clear_invalidates _ _ _ _ Hvalid Htd) as (s' & Hclear & Hinv).
    rewrite (ll_delete_spec _ _ _ _ Hvalid Htd).
    unfold mbind at 1. unfold M_bind. rewrite Hclear.
    rewrite (ll_delete_invalid _ _ Hinv).
    rewrite (ll_clear_spec _ _ _ _ Hvalid Htd) in Hclear.
    by injection Hclear as <-.
Qed.

Lemma clear_then_delete_witness :
  invalid_list (State (Some (LL 0 None Unlocked None None INVALID)) ∅ [])
               (LL 0 None Unlocked None None INVALID) ∧
  ll_clear (State (Some (LL 0 None Unlocked None None INVALID)) ∅ [])
  = Ok tt (State (Some (LL 0 None Unlocked None None INVALID)) ∅ []).
Proof.
  assert (Hinv : invalid_list (State (Some (LL 0 None Unlocked None None INVALID)) ∅ [])
                              (LL 0 None Unlocked None None INVALID))
    by (constructor; reflexivity).
  split; [exact Hinv|].
  exact (proj1 (proj1 clear_then_delete _ _ Hinv)).
Defined.

(** ** Lookup below index 0 *)

(** C10. The specification has [ll_get_n] return [NULL] for every index
    below 0, -1 included. Below -1 it does, on every world. At -1 the code
    asks the selection for index 0, is answered 0 with no node assigned, and
    reads [node->val] through the null pointer its local holds: on every
    world, whatever the list. *)
Theorem ll_get_n_minus_1_faults s :
  ll_select_n_min_1 None (int_wrap (-1 + 1)) l_read s = Ok (0, None) s ∧
  ll_get_n (-1) s = Fault NullDeref ∧
  ∀ n, INT_MIN ≤ n < -1 → ll_get_n n s = Ok NULL s.
Proof.
  split_and!.
  - reflexivity.
  - reflexivity.
  - intros n Hn. by apply ll_get_n_negative.
Qed.

Lemma ll_get_n_minus_1_faults_witness :
  INT_MIN ≤ -2 < -1 ∧ ll_get_n (-2) three_world = Ok NULL three_world.
Proof.
  assert (Hn : INT_MIN ≤ -2 < -1) by (vm_compute; split; [discriminate|reflexivity]).
  split; [exact Hn|].
  exact (proj2 (proj2 (ll_get_n_minus_1_faults three_world)) (-2) Hn).
Defined.

Example ll_get_n_minus_1_of_three : ll_get_n (-1) three_world = Fault NullDeref.
Proof. vm_compute. reflexivity. Qed.

Example ll_get_n_minus_2_of_three : ll_get_n (-2) three_world = Ok NULL three_world.
Proof. vm_compute. reflexivity. Qed.

(** ** The structural invariant *)

(** C6. In every world reached from [ll_new] by calls of the public
    functions that return, with whatever indices, the structural invariant
    holds: while the list is valid, the nodes reachable from [hd] form a
    finite chain without repetition and [len] is their number. One more call
    that returns leaves the invariant in place; and a call within its index
    precondition does return. [len + 1] is taken to fit an [int] where a
    call inserts. *)
Theorem ll_inv_preserved s :
  reachable s →
  ll_inv s ∧
  (∀ l c s', list_mem s = Some l → call_typed c l →
             exec c s = Ok tt s' → ll_inv s') ∧
  (∀ l c, list_mem s = Some l → call_pre c l →
          ∃ s', exec c s = Ok tt s' ∧ ll_inv s').
Proof.
  intros Hreach. pose proof (reachable_coherent _ Hreach) as Hco.
  split_and!.
  - by apply coherent_inv.
  - intros l c s' Hmem Htyped Hrun.
    by eapply coherent_inv, exec_typed_coherent.
  - intros l c Hmem Hpre.
    destruct (exec_coherent _ _ _ Hco Hmem Hpre) as (s' & Hrun & Hco').
    exists s'. split; [done|by apply coherent_inv].
Qed.

Lemma ll_inv_preserved_witness : reachable two_world ∧ ll_inv two_world.
Proof.
  split; [exact two_world_reachable|].
  exact (proj1 (ll_inv_preserved two_world two_world_reachable)).
Defined.

(** ** After [ll_clear] *)

(** C3. The specification has every public function but [ll_delete] return
    its failure value and change nothing after [ll_clear]. [ll_get_n]
    at index -1 does not return on the cleared list: it never gets to the
    validity check and reads through a null pointer. [ll_insert_n] at index
    0 returns -1 and leaves the list block alone, but not the heap: the node
    it allocated before the check is still there. (The other functions, and
    these two at any other index, do so: [invalid_list_sentinels].) *)
Theorem ll_get_n_minus_1_after_clear s l items :
  valid_list s l items →
  ∃ s', ll_clear s = Ok tt s' ∧
        invalid_list s' (LL 0 None Unlocked None None INVALID) ∧
        ll_get_n (-1) s' = Fault NullDeref ∧
        ∀ v, ll_insert_n v 0 s'
             = Ok (-1) (State (list_mem s')
                          (<[fresh (dom (heap s')) := Node v None Unlocked]> (heap s'))
                          (calls s')).
Proof.
  intros Hvalid. pose proof Hvalid as [_ _ _ _ _ [td Htd] _ _].
  destruct (ll_clear_invalidates _ _ _ _ Hvalid Htd) as (s' & Hclear & Hinv).
  exists s'. split_and!; [done|done|reflexivity|].
  intros v. by rewrite (ll_insert_n_invalid _ _ Hinv).
Qed.

Lemma ll_get_n_minus_1_after_clear_witness :
  valid_list three_world three_list three_items ∧
  ∃ s', ll_clear three_world = Ok tt s' ∧
        invalid_list s' (LL 0 None Unlocked None None INVALID) ∧
        ll_get_n (-1) s' = Fault NullDeref ∧
        ∀ v, ll_insert_n v 0 s'
             = Ok (-1) (State (list_mem s')
                          (<[fresh (dom (heap s')) := Node v None Unlocked]> (heap s'))
                          (calls s')).
Proof.
  split.
  - apply valid_listb_sound. vm_compute. reflexivity.
  - apply (ll_get_n_minus_1_after_clear three_world three_list three_items).
    apply valid_listb_sound. vm_compute. reflexivity.
Defined.

(** The self-test of [ll.c] after its [ll_clear], and the call it does not
    make. *)
Example after_clear_of_three :
  (ll_clear;; ll_insert_last 3;; ll_insert_last 3;; ll_remove_first;; ll_print;;
   ll_length) three_world
  = Ok (-1) (State (Some (LL 0 None Unlocked None None INVALID))
               (<[2%positive := Node 3 None Unlocked]>
                  (<[1%positive := Node 3 None Unlocked]> ∅))
               [(1%nat, 30); (1%nat, 20); (1%nat, 10)]).
Proof. vm_compute. reflexivity. Qed.

Example after_clear_of_three_get_minus_1 :
  (ll_clear;; ll_get_n (-1)) three_world = Fault NullDeref.
Proof. vm_compute. reflexivity. Qed.
